(** * go-kafka-message-generator: the decoder generator of [pkg/generate]

    The generator reads a Kafka message description ([model.Message]) and
    writes Go source text, line by line, into a [util.CodeBuffer].  This
    development embeds the generator as it is written: the code buffer is
    threaded as explicit state, a Go [error] result and a Go run-time panic
    are the two ways a call can fail, and the text of every emitted line is
    computed by a model of [fmt.Sprintf].

    The library functions the generator calls ([regexp], [strings.ToUpper],
    [fmt.Sprintf], [sort.Strings]) are modelled for the inputs the generator
    gives them. *)

From Stdlib Require Import ZArith NArith Ascii String List Lia DecimalString.
From Stdlib.Strings Require Byte.
From stdpp Require Import base strings list gmap sorting.

Abbreviation byte := Byte.byte.

Set Warnings "-register-all".

Local Open Scope string_scope.
Local Open Scope Z_scope.

(** ** Results of Go calls *)

(** A run-time panic of the Go program. *)
Inductive panic : Type :=
| PIndexOutOfRange (index length : Z)      (* m[1] on a slice that is too short *)
| PSliceBounds (bound length : Z)          (* s[0:1] with len(s) < 1 *)
| PIndentNegative.                         (* panic("indentLevel < 0") *)

(** A dynamically typed Go value ([any]), as far as the generator inspects it:
    [encoding/json] stores a JSON string as [string] and a JSON number as
    [float64]; a caller that builds the message in Go can store an [int]. *)
Inductive any : Type :=
| AnyString (s : string)
| AnyInt (z : Z)
| AnyFloat64 (literal : string)
| AnyBool (b : bool)
| AnyOther.

(** The errors the generator builds with [fmt.Errorf]. *)
Inductive error : Type :=
| ErrStringDefault (v : any)        (* "unexpected value type for string default: %v (%T)" *)
| ErrIntDefault (v : any)           (* "unexpected value type for int default: %v (%T)" *)
| ErrUnrecognizedFieldType (t : string)  (* "unrecognized field type: %s" *)
| ErrWrap (context : string) (e : error). (* "<context>: %w" *)

Inductive result (A : Type) : Type :=
| Ok (a : A)
| Err (e : error)
| Panic (p : panic).
Arguments Ok {A} a.
Arguments Err {A} e.
Arguments Panic {A} p.

Definition rbind {A B} (r : result A) (f : A -> result B) : result B :=
  match r with
  | Ok a => f a
  | Err e => Err e
  | Panic p => Panic p
  end.

(** ** Strings *)

Definition newline : ascii := ascii_of_nat 10.

Definition isDigit (c : ascii) : bool :=
  let n := nat_of_ascii c in ((48 <=? n) && (n <=? 57))%nat.

(** [strings.ToUpper] on the one-byte string [s[0:1]].  An ASCII lower-case
    letter is mapped to upper case and any other ASCII byte is kept.  A byte
    of 0x80 or more is not valid UTF-8 on its own, and [strings.Map] replaces
    it by the encoding of U+FFFD. *)
Definition toUpper1 (c : ascii) : string :=
  let n := nat_of_ascii c in
  if (128 <=? n)%nat then
    String (ascii_of_nat 239) (String (ascii_of_nat 191) (String (ascii_of_nat 189) EmptyString))
  else if ((97 <=? n) && (n <=? 122))%nat then String (ascii_of_nat (n - 32)) EmptyString
  else String c EmptyString.

(** [strings.ToUpper(s[0:1]) + s[1:]]; the slice expression panics on the
    empty string. *)
Definition capitalize (s : string) : result string :=
  match s with
  | EmptyString => Panic (PSliceBounds 1 0)
  | String c rest => Ok (toUpper1 c +:+ rest)
  end.

(** ** [fmt.Sprintf], for the verbs the generator uses *)

Inductive fmtArg : Type :=
| ArgStr (s : string)
| ArgInt (z : Z).

Definition decimal (z : Z) : string := NilZero.string_of_int (Z.to_int z).

Definition fmtVerb (v : ascii) (a : fmtArg) : string :=
  match a with
  | ArgStr s =>
      if Ascii.eqb v "s" then s
      else "%!" +:+ String v EmptyString +:+ "(string=" +:+ s +:+ ")"
  | ArgInt z =>
      if Ascii.eqb v "d" then decimal z
      else "%!" +:+ String v EmptyString +:+ "(int=" +:+ decimal z +:+ ")"
  end.

Fixpoint sprintf (format : string) (args : list fmtArg) : string :=
  match format with
  | EmptyString => EmptyString
  | String c rest =>
      if Ascii.eqb c "%" then
        match rest with
        | EmptyString => "%!(NOVERB)"
        | String v rest' =>
            if Ascii.eqb v "%" then String "%" (sprintf rest' args)
            else match args with
                 | a :: args' => fmtVerb v a +:+ sprintf rest' args'
                 | [] => "%!" +:+ String v EmptyString +:+ "(MISSING)" +:+ sprintf rest' []
                 end
        end
      else String c (sprintf rest args)
  end.

(** ** Regular expressions

    Go's [regexp] finds the leftmost match and, among the matches that start
    there, the one a backtracking search reaches first.  The matcher below is
    that search, in continuation-passing style, for the operators the
    generator's five patterns use. *)

Inductive regex : Type :=
| RChar (c : ascii)
| RDigit                      (* \d : an ASCII digit *)
| RAny                        (* .  : any character but newline *)
| RBol                        (* ^  : start of the text *)
| REol                        (* $  : end of the text *)
| RSeq (r1 r2 : regex)
| RPlus (r : regex)           (* r+, greedy *)
| ROpt (r : regex)            (* r?, greedy *)
| RGroup (i : nat) (r : regex).  (* the i-th capturing group *)

Abbreviation captures := (list (option (nat * nat))).

Definition matcher : Type :=
  nat -> string -> captures -> (nat -> string -> captures -> option captures)
  -> option captures.

(** [r+] for a matcher [m] of [r]: one [r], then as many more as possible,
    fewer if the rest of the pattern does not match after them. *)
Fixpoint plusLoop (m : matcher) (k : nat -> string -> captures -> option captures)
    (fuel : nat) (pos : nat) (rest : string) (cs : captures) : option captures :=
  match fuel with
  | O => None
  | S fuel' =>
      m pos rest cs (fun p s c =>
        match (if (pos <? p)%nat then plusLoop m k fuel' p s c else None) with
        | Some c' => Some c'
        | None => k p s c
        end)
  end.

Fixpoint rmatch (r : regex) (pos : nat) (rest : string) (cs : captures)
    (k : nat -> string -> captures -> option captures) : option captures :=
  match r with
  | RChar c =>
      match rest with
      | String a rest' => if Ascii.eqb a c then k (S pos) rest' cs else None
      | EmptyString => None
      end
  | RDigit =>
      match rest with
      | String a rest' => if isDigit a then k (S pos) rest' cs else None
      | EmptyString => None
      end
  | RAny =>
      match rest with
      | String a rest' => if Ascii.eqb a newline then None else k (S pos) rest' cs
      | EmptyString => None
      end
  | RBol => if (pos =? 0)%nat then k pos rest cs else None
  | REol =>
      match rest with
      | EmptyString => k pos rest cs
      | String _ _ => None
      end
  | RSeq r1 r2 => rmatch r1 pos rest cs (fun p s c => rmatch r2 p s c k)
  | RPlus r1 => plusLoop (rmatch r1) k (S (String.length rest)) pos rest cs
  | ROpt r1 =>
      match rmatch r1 pos rest cs k with
      | Some c => Some c
      | None => k pos rest cs
      end
  | RGroup i r1 =>
      rmatch r1 pos rest cs (fun p s c => k p s (<[i := Some (pos, p)]> c))
  end.

Fixpoint ngroups (r : regex) : nat :=
  match r with
  | RSeq r1 r2 => (ngroups r1 + ngroups r2)%nat
  | RPlus r1 | ROpt r1 => ngroups r1
  | RGroup _ r1 => S (ngroups r1)
  | _ => O
  end.

(** The leftmost match: the start positions are tried from left to right. *)
Fixpoint findFrom (r : regex) (pos : nat) (rest : string) : option captures :=
  match rmatch r pos rest (replicate (S (ngroups r)) None)
          (fun p _ c => Some (<[O := Some (pos, p)]> c)) with
  | Some c => Some c
  | None =>
      match rest with
      | EmptyString => None
      | String _ rest' => findFrom r (S pos) rest'
      end
  end.

(** [re.FindStringSubmatch(s)]: the nil slice when there is no match, else the
    text of the match followed by the text of every group (the empty string
    for a group that did not take part). *)
Definition FindStringSubmatch (r : regex) (s : string) : list string :=
  match findFrom r O s with
  | None => []
  | Some cs =>
      map (fun c => match c with
                    | Some (i, j) => substring i (j - i) s
                    | None => EmptyString
                    end) cs
  end.

Definition arrayRegex : regex :=           (* "^(\\[])?(.+)$" *)
  RSeq RBol (RSeq (ROpt (RGroup 1 (RSeq (RChar "[") (RChar "]"))))
                  (RSeq (RGroup 2 (RPlus RAny)) REol)).
Definition versionRangeRegexp : regex :=   (* "(\\d+)-(\\d+)" *)
  RSeq (RGroup 1 (RPlus RDigit)) (RSeq (RChar "-") (RGroup 2 (RPlus RDigit))).
Definition versionMinRegexp : regex :=     (* "(\\d+)\\+" *)
  RSeq (RGroup 1 (RPlus RDigit)) (RChar "+").
Definition versionRegexp : regex :=        (* "(\\d+)" *)
  RGroup 1 (RPlus RDigit).

(** [m[i]] on a slice of strings. *)
Definition index (m : list string) (i : nat) : result string :=
  match m !! i with
  | Some s => Ok s
  | None => Panic (PIndexOutOfRange (Z.of_nat i) (Z.of_nat (length m)))
  end.

(** [deconstructFieldType] *)
Definition deconstructFieldType (fieldType : string) : result (bool * string) :=
  let m := FindStringSubmatch arrayRegex fieldType in
  rbind (index m 1) (fun m1 =>
  rbind (index m 2) (fun m2 =>
  Ok (String.eqb m1 "[]", m2))).

(** ** The schema model ([pkg/model]) *)

Inductive MessageField : Type :=
  mkMessageField {
      f_Name : string;
      f_Type : string;
      f_Versions : string;
      f_About : string;
      f_Default : option any;        (* *any, nil when absent *)
      f_Ignorable : option bool;
      f_Fields : list MessageField }.

Record CommonStruct : Type :=
  mkCommonStruct {
      cs_Name : string;
      cs_Versions : string;
      cs_Fields : list MessageField }.

Record Message : Type :=
  mkMessage {
      m_MessageType : string;
      m_Name : string;
      m_ValidVersions : string;
      m_FlexibleVersions : string;
      m_Fields : list MessageField;
      m_CommonStructs : list CommonStruct }.

(** ** The code buffer ([pkg/util]) *)

Record codeBuffer : Type :=
  mkCodeBuffer {
      lines : list string;
      indentLevel : Z;               (* a Go int *)
      indent : string }.

Definition NewCodeBuffer : codeBuffer :=
  {| lines := []; indentLevel := 0; indent := "    " |}.

(** A 64-bit Go [int] after an arithmetic operation. *)
Definition wrapInt (z : Z) : Z := (z + 2 ^ 63) mod 2 ^ 64 - 2 ^ 63.

(** The generator's calls: they read and update the code buffer, and end
    normally, with an error, or in a panic. *)
Definition M (A : Type) : Type := codeBuffer -> result (A * codeBuffer).

#[global] Instance M_ret : MRet M := fun A a cb => Ok (a, cb).
#[global] Instance M_bind : MBind M := fun A B f m cb =>
  match m cb with
  | Ok (a, cb') => f a cb'
  | Err e => Err e
  | Panic p => Panic p
  end.

Definition liftR {A} (r : result A) : M A := fun cb =>
  match r with
  | Ok a => Ok (a, cb)
  | Err e => Err e
  | Panic p => Panic p
  end.

Definition fail {A} (e : error) : M A := fun _ => Err e.

(** [for _, x := range l { f(x) }] *)
Fixpoint forEach {A} (l : list A) (f : A -> M unit) : M unit :=
  match l with
  | [] => mret tt
  | x :: l' => f x;; forEach l' f
  end.

Definition IncrementIndent : M unit := fun cb =>
  Ok (tt, {| lines := lines cb; indentLevel := wrapInt (indentLevel cb + 1);
             indent := indent cb |}).

Definition DecrementIndent : M unit := fun cb =>
  let l := wrapInt (indentLevel cb - 1) in
  if l <? 0 then Panic PIndentNegative
  else Ok (tt, {| lines := lines cb; indentLevel := l; indent := indent cb |}).

Fixpoint repeatString (n : nat) (s : string) : string :=
  match n with
  | O => EmptyString
  | S n' => s +:+ repeatString n' s
  end.

Definition indentSpaces (cb : codeBuffer) : string :=
  repeatString (Z.to_nat (indentLevel cb)) (indent cb).

Definition AddLine (format : string) (a : list fmtArg) : M unit := fun cb =>
  Ok (tt, {| lines := lines cb ++ [sprintf (indentSpaces cb +:+ format) a];
             indentLevel := indentLevel cb; indent := indent cb |}).

(** A double quote, for the format strings that contain one. *)
Definition dq : string := String (ascii_of_nat 34) EmptyString.

Definition cap (s : string) : M fmtArg := liftR (rbind (capitalize s) (fun c => Ok (ArgStr c))).

(** ** The generator ([pkg/generate]) *)

(** [len(field.Fields) > 0] *)
Definition hasFields (field : MessageField) : bool :=
  (0 <? length (f_Fields field))%nat.

Definition addVersionIfClause (versions : string) : M bool :=
  let m := FindStringSubmatch versionRangeRegexp versions in
  if (length m =? 2)%nat then
    m0 ← liftR (index m 0);
    m1 ← liftR (index m 1);
    AddLine "if version >= %d || version <= %d" [ArgStr m0; ArgStr m1];;
    mret true
  else
    let m := FindStringSubmatch versionMinRegexp versions in
    if (length m =? 1)%nat then
      m0 ← liftR (index m 0);
      AddLine "if version >= %d" [ArgStr m0];;
      mret true
    else
      let m := FindStringSubmatch versionRegexp versions in
      if (length m =? 1)%nat then
        m0 ← liftR (index m 0);
        AddLine "if version == %d" [ArgStr m0];;
        mret true
      else mret false.

Definition addReadString (fieldName : string) (appendToArray : bool) : M unit :=
  AddLine "{" [];;
  IncrementIndent;;
  AddLine "stringLen := binary.BigEndian.Uint16(data)" [];;
  AddLine "if stringLen < 0 {" [];;
  IncrementIndent;;
  AddLine ("return res, fmt.Errorf(" +:+ dq +:+ "non-nullable field %s was serialized as null"
             +:+ dq +:+ ")") [ArgStr fieldName];;
  DecrementIndent;;
  AddLine "} else if stringLen > 0x7fff {" [];;
  IncrementIndent;;
  AddLine ("return res, fmt.Errorf(" +:+ dq +:+ "string field %s had invalid length %%d"
             +:+ dq +:+ ", stringLen)") [ArgStr fieldName];;
  DecrementIndent;;
  AddLine "} else {" [];;
  IncrementIndent;;
  (if appendToArray then
     c1 ← cap fieldName; c2 ← cap fieldName;
     AddLine "res.%s = append(res.%s, string(data[0:stringLen]))" [c1; c2]
   else
     c1 ← cap fieldName;
     AddLine "res.%s = string(data[0:stringLen])" [c1]);;
  AddLine "data = data[stringLen:]" [];;
  DecrementIndent;;
  AddLine "}" [];;
  DecrementIndent;;
  AddLine "}" [].

Definition addReadBytes (fieldName : string) (appendToArray : bool) : M unit :=
  AddLine "{" [];;
  IncrementIndent;;
  AddLine "bytesLen, err := binary.ReadUvarint(bytes.NewReader(data))" [];;
  AddLine "if err != nil {" [];;
  IncrementIndent;;
  AddLine ("return res, fmt.Errorf(" +:+ dq +:+ "problem reading uvarint: %%w" +:+ dq
             +:+ ", err)") [];;
  DecrementIndent;;
  AddLine "}" [];;
  AddLine "if bytesLen < 0 {" [];;
  IncrementIndent;;
  AddLine ("return res, fmt.Errorf(" +:+ dq +:+ "non-nullable field group was serialized as null"
             +:+ dq +:+ ")") [];;
  DecrementIndent;;
  AddLine "}" [];;
  (if appendToArray then
     c1 ← cap fieldName; c2 ← cap fieldName;
     AddLine "res.%s = append(res.%s, data[0:bytesLen])" [c1; c2]
   else
     c1 ← cap fieldName;
     AddLine "res.%s = data[0:bytesLen]" [c1]);;
  AddLine "data = data[bytesLen:]" [];;
  DecrementIndent;;
  AddLine "}" [].

Definition addAllocateCommonStruct (fieldType : string) : M unit :=
  '(_, ft) ← liftR (deconstructFieldType fieldType);
  c ← liftR (capitalize ft);
  let constructName := sprintf "New%s" [ArgStr c] in
  AddLine "v, err := %s(data)" [ArgStr constructName];;
  AddLine "if err != nil {" [];;
  IncrementIndent;;
  c' ← cap ft;
  AddLine ("return res, fmt.Errorf(" +:+ dq +:+ "problem building %s: %%w" +:+ dq
             +:+ ", err)") [c'];;
  DecrementIndent;;
  AddLine "}" [].

Definition addAllocateInlineStruct (name : string) (fieldType : string) : M unit :=
  '(_, ft) ← liftR (deconstructFieldType fieldType);
  c ← liftR (capitalize ft);
  let constructName := sprintf "New%s%s" [ArgStr name; ArgStr c] in
  AddLine "v, err := %s(data)" [ArgStr constructName];;
  AddLine "if err != nil {" [];;
  IncrementIndent;;
  c' ← cap ft;
  AddLine ("return res, fmt.Errorf(" +:+ dq +:+ "problem building %s%s: %%w" +:+ dq
             +:+ ", err)") [ArgStr name; c'];;
  DecrementIndent;;
  AddLine "}" [].

(** The statement for one element of an array field (the switch under
    [if isArray]). *)
Definition addReadElement (name : string) (field : MessageField) (fieldType : string) : M unit :=
  if String.eqb fieldType "int8" then
    c1 ← cap (f_Name field); c2 ← cap (f_Name field);
    AddLine "res.%s = append(res.%s, int8(data[0]))" [c1; c2];;
    AddLine "data = data[1:]" []
  else if String.eqb fieldType "int16" then
    c1 ← cap (f_Name field); c2 ← cap (f_Name field);
    AddLine "res.%s = append(res.%s, int16(binary.BigEndian.Uint16(data)))" [c1; c2]
  else if String.eqb fieldType "int32" then
    c1 ← cap (f_Name field); c2 ← cap (f_Name field);
    AddLine "res.%s = append(res.%s, int32(binary.BigEndian.Uint32(data)))" [c1; c2]
  else if String.eqb fieldType "int64" then
    c1 ← cap (f_Name field); c2 ← cap (f_Name field);
    AddLine "res.%s = append(res.%s, int32(binary.BigEndian.Uint64(data)))" [c1; c2]
  else if String.eqb fieldType "string" then
    addReadString (f_Name field) true
  else if String.eqb fieldType "uuid" then
    c1 ← cap (f_Name field); c2 ← cap (f_Name field);
    AddLine "res.%s = append(res.%s, binary.BigEndian.Uint16(data))" [c1; c2]
  else if String.eqb fieldType "bytes" then
    addReadBytes (f_Name field) true
  else
    AddLine "{" [];;
    IncrementIndent;;
    (if hasFields field then addAllocateInlineStruct name (f_Type field)
     else addAllocateCommonStruct (f_Type field));;
    c1 ← cap (f_Name field); c2 ← cap (f_Name field);
    AddLine "res.%s = append(res.%s, v)" [c1; c2];;
    DecrementIndent;;
    AddLine "}" [].

(** The statement for a field that is not an array (the switch under
    [else]). *)
Definition addReadScalar (name : string) (field : MessageField) (fieldType : string) : M unit :=
  if String.eqb fieldType "int8" then
    c1 ← cap (f_Name field);
    AddLine "res.%s = int8(data[0])" [c1];;
    AddLine "data = data[1:]" []
  else if String.eqb fieldType "int16" then
    c1 ← cap (f_Name field);
    AddLine "res.%s = int16(binary.BigEndian.Uint16(data))" [c1]
  else if String.eqb fieldType "int32" then
    c1 ← cap (f_Name field);
    AddLine "res.%s = int32(binary.BigEndian.Uint32(data))" [c1]
  else if String.eqb fieldType "int64" then
    c1 ← cap (f_Name field);
    AddLine "res.%s = int64(binary.BigEndian.Uint64(data))" [c1]
  else if String.eqb fieldType "string" then
    addReadString (f_Name field) false
  else if String.eqb fieldType "uuid" then
    c1 ← cap (f_Name field);
    AddLine "res.%s = binary.BigEndian.Uint16(data)" [c1]
  else if String.eqb fieldType "bytes" then
    addReadBytes (f_Name field) false
  else
    AddLine "{" [];;
    IncrementIndent;;
    (if hasFields field then addAllocateInlineStruct name (f_Type field)
     else addAllocateCommonStruct (f_Type field));;
    c1 ← cap (f_Name field);
    AddLine "res.%s = v" [c1];;
    DecrementIndent;;
    AddLine "}" [].

(** The [else] branch of the version guard: the assignment of the default
    value (the switch on [field.Type] under [if field.Default != nil]). *)
Definition addDefault (field : MessageField) (d : any) : M unit :=
  AddLine "} else {" [];;
  IncrementIndent;;
  (if String.eqb (f_Type field) "string" then
     match d with
     | AnyString defaultString =>
         c1 ← cap (f_Name field);
         AddLine "res.%s = %s" [c1; ArgStr defaultString]
     | _ => fail (ErrStringDefault d)
     end
   else if String.eqb (f_Type field) "int32" || String.eqb (f_Type field) "int64" then
     match d with
     | AnyInt defaultInt =>
         c1 ← cap (f_Name field);
         AddLine "res.%s = %d" [c1; ArgInt defaultInt]
     | _ => fail (ErrIntDefault d)
     end
   else fail (ErrUnrecognizedFieldType (f_Type field)));;
  DecrementIndent.

Definition addReadField (name : string) (field : MessageField) : M unit :=
  versions ← addVersionIfClause (f_Versions field);
  (if versions : bool then IncrementIndent else mret tt);;
  '(isArray, fieldType) ← liftR (deconstructFieldType (f_Type field));
  (if isArray : bool then
     AddLine "{" [];;
     IncrementIndent;;
     AddLine "arrLen, err := binary.ReadUvarint(bytes.NewReader(data))" [];;
     AddLine "if err != nil {" [];;
     IncrementIndent;;
     AddLine ("return res, fmt.Errorf(" +:+ dq +:+ "problem reading uvarint: %%w" +:+ dq
                +:+ ", err)") [];;
     DecrementIndent;;
     AddLine "}" [];;
     AddLine "arrLen--" [];;
     AddLine "for i := uint64(0); i < arrLen; i++ {" [];;
     IncrementIndent;;
     addReadElement name field fieldType;;
     DecrementIndent;;
     AddLine "}" [];;
     DecrementIndent;;
     AddLine "}" []
   else addReadScalar name field fieldType);;
  (if versions : bool then
     DecrementIndent;;
     match f_Default field with
     | Some d => addDefault field d
     | None => mret tt
     end;;
     AddLine "}" []
   else mret tt).

(** The field list of a struct type. *)
Definition addStructField (name : string) (field : MessageField) : M unit :=
  let fieldType :=
    if String.eqb (f_Type field) "uuid" then "uint16"
    else if String.eqb (f_Type field) "bytes" then "[]byte"
    else f_Type field in
  if hasFields field then
    '(isArray, ft) ← liftR (deconstructFieldType fieldType);
    if isArray : bool then
      c ← cap (f_Name field);
      AddLine "%s []%s%s" [c; ArgStr name; ArgStr ft]
    else
      c ← cap (f_Name field);
      AddLine "%s %s%s" [c; ArgStr name; ArgStr fieldType]
  else
    c ← cap (f_Name field);
    AddLine "%s %s" [c; ArgStr fieldType].

Definition addStructFields (name : string) (fields : list MessageField) : M unit :=
  forEach fields (addStructField name).

Definition addCommonStruct (name : string) (cs : CommonStruct) : M unit :=
  versions ← addVersionIfClause (cs_Versions cs);
  (if versions : bool then IncrementIndent else mret tt);;
  AddLine "type %s struct {" [ArgStr (cs_Name cs)];;
  IncrementIndent;;
  addStructFields name (cs_Fields cs);;
  DecrementIndent;;
  AddLine "}" [];;
  c1 ← cap (cs_Name cs); c2 ← cap (cs_Name cs);
  AddLine "func New%s(data []byte) (%s, error) {" [c1; c2];;
  IncrementIndent;;
  c3 ← cap (cs_Name cs);
  AddLine "var res %s" [c3];;
  forEach (cs_Fields cs) (addReadField name);;
  AddLine "return res, nil" [];;
  DecrementIndent;;
  AddLine "}" [];;
  (if versions : bool then DecrementIndent;; AddLine "}" [] else mret tt).

Definition addInlineStruct (name : string) (field : MessageField) : M unit :=
  versions ← addVersionIfClause (f_Versions field);
  (if versions : bool then IncrementIndent else mret tt);;
  '(_, fieldType) ← liftR (deconstructFieldType (f_Type field));
  AddLine "type %s%s struct {" [ArgStr name; ArgStr fieldType];;
  IncrementIndent;;
  addStructFields name (f_Fields field);;
  DecrementIndent;;
  AddLine "}" [];;
  c1 ← cap fieldType; c2 ← cap fieldType;
  AddLine "func New%s%s(data []byte) (%s%s, error) {" [ArgStr name; c1; ArgStr name; c2];;
  IncrementIndent;;
  c3 ← cap fieldType;
  AddLine "var res %s%s" [ArgStr name; c3];;
  forEach (f_Fields field) (addReadField name);;
  AddLine "return res, nil" [];;
  DecrementIndent;;
  AddLine "}" [];;
  (if versions : bool then DecrementIndent;; AddLine "}" [] else mret tt).

(** Every field that has fields of its own, parents before children. *)
Fixpoint collectInlineStruct (field : MessageField) : list MessageField :=
  match f_Fields field with
  | [] => []
  | _ :: _ => field :: flat_map collectInlineStruct (f_Fields field)
  end.

Definition collectInlineStructs (fields : list MessageField) : list MessageField :=
  flat_map collectInlineStruct fields.

(** [sort.Strings] orders strings byte by byte. *)
Definition string_le (s1 s2 : string) : Prop := Is_true (String.leb s1 s2).

#[global] Instance string_le_dec (s1 s2 : string) : Decision (string_le s1 s2).
Proof. unfold string_le. apply _. Defined.

Definition sortStrings (l : list string) : list string := merge_sort string_le l.

(** One turn of the loop over the fields in [collectImports]. *)
Definition importStep (dependsOn : gmap string bool) (field : MessageField)
    : result (gmap string bool) :=
  rbind (deconstructFieldType (f_Type field)) (fun '(isArray, fieldType) =>
  let dependsOn :=
    if isArray : bool then <["fmt" := true]> (<["bytes" := true]> dependsOn)
    else dependsOn in
  Ok (if String.eqb fieldType "bytes" then <["fmt" := true]> (<["bytes" := true]> dependsOn)
      else if String.eqb fieldType "string" then <["fmt" := true]> dependsOn
      else if String.eqb fieldType "int8" || String.eqb fieldType "int16"
              || String.eqb fieldType "int32" || String.eqb fieldType "int64"
              || String.eqb fieldType "uuid" then dependsOn
      else <["fmt" := true]> dependsOn)).

Fixpoint foldR {A B} (f : A -> B -> result A) (a : A) (l : list B) : result A :=
  match l with
  | [] => Ok a
  | x :: l' => rbind (f a x) (fun a' => foldR f a' l')
  end.

(** The keys of the map whose value is [true], in the order in which the map
    is traversed.  Go leaves that order open; the result is sorted before it
    is returned. *)
Definition trueKeys (dependsOn : gmap string bool) : list string :=
  (map_to_list (filter (fun kv => kv.2 = true) dependsOn)).*1.

Definition collectImports (spec : Message) : result (list string) :=
  let dependsOn : gmap string bool :=
    <["bytes" := false]> (<["encoding/binary" := true]> (<["fmt" := false]> ∅)) in
  let fields := (m_Fields spec ++ flat_map cs_Fields (m_CommonStructs spec))%list in
  rbind (foldR importStep dependsOn fields) (fun dependsOn =>
  Ok (sortStrings (trueKeys dependsOn))).

(** [fmt.Errorf("<context>: %w", err)] around a call. *)
Definition wrapErr {A} (context : string) (m : M A) : M A := fun cb =>
  match m cb with
  | Err e => Err (ErrWrap context e)
  | r => r
  end.

Definition generateFile (packageName : string) (spec : Message) : M string :=
  AddLine "package %s" [ArgStr packageName];;
  AddLine "import (" [];;
  IncrementIndent;;
  imports ← liftR (collectImports spec);
  forEach imports (fun dep => AddLine (dq +:+ "%s" +:+ dq) [ArgStr dep]);;
  DecrementIndent;;
  AddLine ")" [];;
  AddLine "type %s struct {" [ArgStr (m_Name spec)];;
  IncrementIndent;;
  addStructFields (m_Name spec) (m_Fields spec);;
  DecrementIndent;;
  AddLine "}" [];;
  forEach (m_CommonStructs spec) (fun cs =>
    wrapErr "problem adding common struct" (addCommonStruct (m_Name spec) cs));;
  forEach (collectInlineStructs (m_Fields spec)) (fun inlineStruct =>
    wrapErr "problem adding inline struct" (addInlineStruct (m_Name spec) inlineStruct));;
  AddLine "func Read%s(data []byte, version int) (%s, error) {"
    [ArgStr (m_Name spec); ArgStr (m_Name spec)];;
  IncrementIndent;;
  AddLine "var res %s" [ArgStr (m_Name spec)];;
  forEach (m_Fields spec) (addReadField (m_Name spec));;
  AddLine "return res, nil" [];;
  DecrementIndent;;
  AddLine "}" [];;
  mret (m_Name spec +:+ ".go").

(** What [Run] does for one message: a new code buffer, then [generateFile]. *)
Definition generate (packageName : string) (spec : Message) : result (string * codeBuffer) :=
  generateFile packageName spec NewCodeBuffer.

Definition field (name type versions : string) : MessageField :=
  mkMessageField name type versions EmptyString None None [].

(** ** The emitted decode statements

    [addReadField] writes Go statements of a few fixed shapes.  [stmt] names
    these shapes, [render] gives their text (with the format strings of the
    generator), and [exec] below gives what the Go statement does when the
    generated decoder runs. *)

(** The local variables of the emitted code: [arrLen] and [bytesLen] are
    [uint64] (results of [binary.ReadUvarint]), [stringLen] is [uint16]. *)
Inductive var : Type := ArrLen | StringLen | BytesLen.

Definition varName (v : var) : string :=
  match v with
  | ArrLen => "arrLen"
  | StringLen => "stringLen"
  | BytesLen => "bytesLen"
  end.

Inductive expr : Type :=
| EInt8             (* int8(data[0]) *)
| EInt16            (* int16(binary.BigEndian.Uint16(data)) *)
| EInt32            (* int32(binary.BigEndian.Uint32(data)) *)
| EInt64            (* int64(binary.BigEndian.Uint64(data)) *)
| EInt32Of64        (* int32(binary.BigEndian.Uint64(data)) *)
| EUint16           (* binary.BigEndian.Uint16(data) *)
| EStringTo (v : var)  (* string(data[0:v]) *)
| ESliceTo (v : var)   (* data[0:v] *)
| EV.               (* v, the result of a constructor call *)

Inductive stmt : Type :=
| SBlock (body : list stmt)           (* { ... } *)
| SReadUvarint (v : var)              (* v, err := binary.ReadUvarint(bytes.NewReader(data)) *)
| SIfErr (body : list stmt)           (* if err != nil { ... } *)
| SDecr (v : var)                     (* v-- *)
| SFor (v : var) (body : list stmt)   (* for i := uint64(0); i < v; i++ { ... } *)
| SAssign (f : string) (e : expr)     (* res.F = e *)
| SAppend (f : string) (e : expr)     (* res.F = append(res.F, e) *)
| SAdvance1                           (* data = data[1:] *)
| SAdvance (v : var)                  (* data = data[v:] *)
| SReadUint16 (v : var)               (* v := binary.BigEndian.Uint16(data) *)
| SIfNegElseBig (v : var) (neg big other : list stmt)
                                      (* if v < 0 { } else if v > 0x7fff { } else { } *)
| SIfNeg (v : var) (body : list stmt) (* if v < 0 { ... } *)
| SCall (constructName : string)      (* v, err := New...(data) *)
| SReturnUvarint                      (* return res, fmt.Errorf("problem reading uvarint: %w", err) *)
| SReturnNullField (fieldName : string)
                                      (* ... "non-nullable field <name> was serialized as null" *)
| SReturnNullGroup                    (* ... "non-nullable field group was serialized as null" *)
| SReturnInvalidLength (fieldName : string)
                                      (* ... "string field <name> had invalid length %d", stringLen *)
| SReturnBuilding (what : list fmtArg) (* ... "problem building <what>: %w", err *).

Definition exprText (e : expr) : string :=
  match e with
  | EInt8 => "int8(data[0])"
  | EInt16 => "int16(binary.BigEndian.Uint16(data))"
  | EInt32 => "int32(binary.BigEndian.Uint32(data))"
  | EInt64 => "int64(binary.BigEndian.Uint64(data))"
  | EInt32Of64 => "int32(binary.BigEndian.Uint64(data))"
  | EUint16 => "binary.BigEndian.Uint16(data)"
  | EStringTo v => "string(data[0:" +:+ varName v +:+ "])"
  | ESliceTo v => "data[0:" +:+ varName v +:+ "]"
  | EV => "v"
  end.

(** One line of the code buffer at indentation level [lvl]. *)
Definition line (lvl : nat) (format : string) (a : list fmtArg) : string :=
  sprintf (repeatString lvl "    " +:+ format) a.

Fixpoint render (lvl : nat) (s : stmt) : list string :=
  let renders := fix renders (l : list stmt) : list string :=
    match l with
    | [] => []
    | s :: l' => (render (S lvl) s ++ renders l')%list
    end in
  match s with
  | SBlock body => ([line lvl "{" []] ++ renders body ++ [line lvl "}" []])%list
  | SReadUvarint v =>
      [line lvl (varName v +:+ ", err := binary.ReadUvarint(bytes.NewReader(data))") []]
  | SIfErr body => ([line lvl "if err != nil {" []] ++ renders body ++ [line lvl "}" []])%list
  | SDecr v => [line lvl (varName v +:+ "--") []]
  | SFor v body =>
      ([line lvl ("for i := uint64(0); i < " +:+ varName v +:+ "; i++ {") []]
         ++ renders body ++ [line lvl "}" []])%list
  | SAssign f e => [line lvl ("res.%s = " +:+ exprText e) [ArgStr f]]
  | SAppend f e => [line lvl ("res.%s = append(res.%s, " +:+ exprText e +:+ ")") [ArgStr f; ArgStr f]]
  | SAdvance1 => [line lvl "data = data[1:]" []]
  | SAdvance v => [line lvl ("data = data[" +:+ varName v +:+ ":]") []]
  | SReadUint16 v => [line lvl (varName v +:+ " := binary.BigEndian.Uint16(data)") []]
  | SIfNegElseBig v neg big other =>
      ([line lvl ("if " +:+ varName v +:+ " < 0 {") []] ++ renders neg
         ++ [line lvl ("} else if " +:+ varName v +:+ " > 0x7fff {") []] ++ renders big
         ++ [line lvl "} else {" []] ++ renders other ++ [line lvl "}" []])%list
  | SIfNeg v body =>
      ([line lvl ("if " +:+ varName v +:+ " < 0 {") []] ++ renders body ++ [line lvl "}" []])%list
  | SCall constructName => [line lvl "v, err := %s(data)" [ArgStr constructName]]
  | SReturnUvarint =>
      [line lvl ("return res, fmt.Errorf(" +:+ dq +:+ "problem reading uvarint: %%w" +:+ dq
                   +:+ ", err)") []]
  | SReturnNullField fieldName =>
      [line lvl ("return res, fmt.Errorf(" +:+ dq
                   +:+ "non-nullable field %s was serialized as null" +:+ dq +:+ ")")
         [ArgStr fieldName]]
  | SReturnNullGroup =>
      [line lvl ("return res, fmt.Errorf(" +:+ dq
                   +:+ "non-nullable field group was serialized as null" +:+ dq +:+ ")") []]
  | SReturnInvalidLength fieldName =>
      [line lvl ("return res, fmt.Errorf(" +:+ dq
                   +:+ "string field %s had invalid length %%d" +:+ dq +:+ ", stringLen)")
         [ArgStr fieldName]]
  | SReturnBuilding what =>
      [line lvl ("return res, fmt.Errorf(" +:+ dq +:+ "problem building "
                   +:+ repeatString (length what) "%s" +:+ ": %%w" +:+ dq +:+ ", err)") what]
  end.

Definition renderAll (lvl : nat) (l : list stmt) : list string :=
  flat_map (render lvl) l.

(** *** The statements [addReadField] writes, as [stmt]s *)

Definition isPrimitive (fieldType : string) : bool :=
  String.eqb fieldType "int8" || String.eqb fieldType "int16"
  || String.eqb fieldType "int32" || String.eqb fieldType "int64"
  || String.eqb fieldType "string" || String.eqb fieldType "uuid"
  || String.eqb fieldType "bytes".

Definition readStringCode (fieldName F : string) (appendToArray : bool) : stmt :=
  SBlock [ SReadUint16 StringLen;
           SIfNegElseBig StringLen
             [SReturnNullField fieldName]
             [SReturnInvalidLength fieldName]
             [ (if appendToArray then SAppend F (EStringTo StringLen)
                else SAssign F (EStringTo StringLen));
               SAdvance StringLen ] ].

Definition readBytesCode (F : string) (appendToArray : bool) : stmt :=
  SBlock [ SReadUvarint BytesLen;
           SIfErr [SReturnUvarint];
           SIfNeg BytesLen [SReturnNullGroup];
           (if appendToArray then SAppend F (ESliceTo BytesLen)
            else SAssign F (ESliceTo BytesLen));
           SAdvance BytesLen ].

(** [addAllocateInlineStruct] and [addAllocateCommonStruct]; [C] is the
    capitalized element type. *)
Definition allocateCode (inline : bool) (name C : string) : list stmt :=
  if inline then
    [ SCall (sprintf "New%s%s" [ArgStr name; ArgStr C]);
      SIfErr [SReturnBuilding [ArgStr name; ArgStr C]] ]
  else
    [ SCall (sprintf "New%s" [ArgStr C]);
      SIfErr [SReturnBuilding [ArgStr C]] ].

Definition elementCode (name : string) (field : MessageField) (F fieldType C : string)
    : list stmt :=
  if String.eqb fieldType "int8" then [SAppend F EInt8; SAdvance1]
  else if String.eqb fieldType "int16" then [SAppend F EInt16]
  else if String.eqb fieldType "int32" then [SAppend F EInt32]
  else if String.eqb fieldType "int64" then [SAppend F EInt32Of64]
  else if String.eqb fieldType "string" then [readStringCode (f_Name field) F true]
  else if String.eqb fieldType "uuid" then [SAppend F EUint16]
  else if String.eqb fieldType "bytes" then [readBytesCode F true]
  else [SBlock (allocateCode (hasFields field) name C ++ [SAppend F EV])%list].

Definition scalarCode (name : string) (field : MessageField) (F fieldType C : string)
    : list stmt :=
  if String.eqb fieldType "int8" then [SAssign F EInt8; SAdvance1]
  else if String.eqb fieldType "int16" then [SAssign F EInt16]
  else if String.eqb fieldType "int32" then [SAssign F EInt32]
  else if String.eqb fieldType "int64" then [SAssign F EInt64]
  else if String.eqb fieldType "string" then [readStringCode (f_Name field) F false]
  else if String.eqb fieldType "uuid" then [SAssign F EUint16]
  else if String.eqb fieldType "bytes" then [readBytesCode F false]
  else [SBlock (allocateCode (hasFields field) name C ++ [SAssign F EV])%list].

Definition arrayCode (element : list stmt) : list stmt :=
  [ SBlock [ SReadUvarint ArrLen;
             SIfErr [SReturnUvarint];
             SDecr ArrLen;
             SFor ArrLen element ] ].

(** The statements of one field.  The result is [Ok] when the type matches
    [arrayRegex], the field name is not empty and, for a field of a struct
    type, the element type can be capitalized. *)
Definition readFieldCode (name : string) (field : MessageField) : result (list stmt) :=
  rbind (deconstructFieldType (f_Type field)) (fun '(isArray, fieldType) =>
  rbind (capitalize (f_Name field)) (fun F =>
  rbind (if isPrimitive fieldType then Ok EmptyString else capitalize fieldType) (fun C =>
  Ok (if isArray : bool then arrayCode (elementCode name field F fieldType C)
      else scalarCode name field F fieldType C)))).

(** ** Running the emitted statements *)

Inductive readError : Type := EOF | ErrUnexpectedEOF | ErrOverflow.

(** The errors a generated decoder returns. *)
Inductive decodeError : Type :=
| VarintReadFailure (e : option readError)
| UnexpectedNull
| InvalidLength (n : Z)
| BuildingFailure.

Inductive value : Type :=
| VInt (z : Z)
| VString (s : list byte)
| VBytes (s : list byte)
| VRecord (fields : list (string * value))
| VList (l : list value).

Inductive callResult : Type :=
| CallOk (v : value)
| CallErr (v : value)
| CallPanic.

(** The variables of a generated decoder.  The slice [data] is kept as its
    elements ([data]) and the elements of its array between its length and
    its capacity ([spare]); [err] holds whether the last call set an error. *)
Record goState : Type :=
  mkGoState {
      data : list byte;
      spare : list byte;
      locals : var -> Z;
      err : option (option readError);
      v : option value;
      res : gmap string value }.

Inductive outcome : Type :=
| Next (st : goState)
| Return (e : decodeError)
| Crash.

Definition obind (o : outcome) (f : goState -> outcome) : outcome :=
  match o with
  | Next st => f st
  | Return e => Return e
  | Crash => Crash
  end.

Definition byteZ (b : byte) : Z := Z.of_N (Byte.to_N b).

(** A [w]-bit pattern read as a signed integer. *)
Definition toSigned (w : Z) (z : Z) : Z :=
  let z := z mod 2 ^ w in if z <? 2 ^ (w - 1) then z else z - 2 ^ w.

(** [binary.BigEndian.Uint16/32/64(b)]: the first [n] bytes, most significant
    first; [None] stands for the panic on a slice shorter than [n]. *)
Fixpoint bigEndian (n : nat) (acc : Z) (b : list byte) : option Z :=
  match n with
  | O => Some acc
  | S n' =>
      match b with
      | [] => None
      | x :: b' => bigEndian n' (Z.lor (Z.shiftl acc 8) (byteZ x)) b'
      end
  end.

(** The loop of [binary.ReadUvarint]: [n] turns are left, [i] is the index of
    the byte, [x] the value so far and [s] the shift. *)
Fixpoint uvarintLoop (n : nat) (i x s : Z) (r : list byte) : Z * option readError :=
  match n with
  | O => (x, Some ErrOverflow)
  | S n' =>
      match r with
      | [] => (x, Some (if 0 <? i then ErrUnexpectedEOF else EOF))
      | b :: r' =>
          let b := byteZ b in
          if b <? 128 then
            if (i =? 9) && (1 <? b) then (x, Some ErrOverflow)
            else (Z.lor x (Z.shiftl b s mod 2 ^ 64), None)
          else uvarintLoop n' (i + 1) (Z.lor x (Z.shiftl (Z.land b 127) s mod 2 ^ 64))
                 (s + 7) r'
      end
  end.

Definition ReadUvarint (r : list byte) : Z * option readError := uvarintLoop 10 0 0 0 r.

(** [p] turns of a loop body; a return or a panic ends the loop. *)
Fixpoint iterP (p : positive) (f : goState -> outcome) (st : goState) : outcome :=
  match p with
  | xH => f st
  | xO p' => obind (iterP p' f st) (iterP p' f)
  | xI p' => obind (f st) (fun st' => obind (iterP p' f st') (iterP p' f))
  end.

Definition loopN (n : N) (f : goState -> outcome) (st : goState) : outcome :=
  match n with
  | N0 => Next st
  | Npos p => iterP p f st
  end.

Definition varWidth (x : var) : Z :=
  match x with
  | ArrLen | BytesLen => 64
  | StringLen => 16
  end.

Definition var_eqb (x y : var) : bool :=
  match x, y with
  | ArrLen, ArrLen | StringLen, StringLen | BytesLen, BytesLen => true
  | _, _ => false
  end.

Definition setLocal (st : goState) (x : var) (z : Z) : goState :=
  {| data := data st; spare := spare st;
     locals := fun y => if var_eqb x y then z else locals st y;
     err := err st; v := v st; res := res st |}.

Definition setErr (st : goState) (e : option (option readError)) : goState :=
  {| data := data st; spare := spare st; locals := locals st;
     err := e; v := v st; res := res st |}.

Definition setData (st : goState) (d : list byte) : goState :=
  {| data := d; spare := spare st; locals := locals st;
     err := err st; v := v st; res := res st |}.

Definition setRes (st : goState) (f : string) (x : value) : goState :=
  {| data := data st; spare := spare st; locals := locals st;
     err := err st; v := v st; res := <[f := x]> (res st) |}.

(** [data[0:n]]: the bound is the capacity of the slice. *)
Definition sliceTo (st : goState) (n : Z) : option (list byte) :=
  if (0 <=? n) && (n <=? Z.of_nat (length (data st) + length (spare st)))
  then Some (take (Z.to_nat n) (data st ++ spare st)%list)
  else None.

Definition eval (e : expr) (st : goState) : option value :=
  match e with
  | EInt8 =>
      match data st with
      | b :: _ => Some (VInt (toSigned 8 (byteZ b)))
      | [] => None
      end
  | EInt16 => z ← bigEndian 2 0 (data st); Some (VInt (toSigned 16 z))
  | EInt32 => z ← bigEndian 4 0 (data st); Some (VInt (toSigned 32 z))
  | EInt64 => z ← bigEndian 8 0 (data st); Some (VInt (toSigned 64 z))
  | EInt32Of64 => z ← bigEndian 8 0 (data st); Some (VInt (toSigned 32 z))
  | EUint16 => z ← bigEndian 2 0 (data st); Some (VInt z)
  | EStringTo x => s ← sliceTo st (locals st x); Some (VString s)
  | ESliceTo x => s ← sliceTo st (locals st x); Some (VBytes s)
  | EV => v st
  end.

(** [append(res.F, x)]; a field that was never assigned holds the nil slice. *)
Definition appended (st : goState) (f : string) (x : value) : value :=
  match res st !! f with
  | Some (VList l) => VList (l ++ [x])
  | _ => VList [x]
  end.

Section exec.
(** The constructors of the other records of the unit. *)
Variable construct : string -> list byte -> list byte -> callResult.

Fixpoint exec (s : stmt) (st : goState) {struct s} : outcome :=
  let execs := fix execs (l : list stmt) (st : goState) {struct l} : outcome :=
    match l with
    | [] => Next st
    | s :: l' => obind (exec s st) (execs l')
    end in
  match s with
  | SBlock body => execs body st
  | SReadUvarint x =>
      let '(z, e) := ReadUvarint (data st) in
      Next (setErr (setLocal st x z) (match e with Some e' => Some (Some e') | None => None end))
  | SIfErr body =>
      match err st with
      | Some _ => execs body st
      | None => Next st
      end
  | SDecr x => Next (setLocal st x ((locals st x - 1) mod 2 ^ varWidth x))
  | SFor x body => loopN (Z.to_N (locals st x)) (execs body) st
  | SAssign f e =>
      match eval e st with
      | Some x => Next (setRes st f x)
      | None => Crash
      end
  | SAppend f e =>
      match eval e st with
      | Some x => Next (setRes st f (appended st f x))
      | None => Crash
      end
  | SAdvance1 =>
      match data st with
      | _ :: d => Next (setData st d)
      | [] => Crash
      end
  | SAdvance x =>
      let n := locals st x in
      if (0 <=? n) && (n <=? Z.of_nat (length (data st)))
      then Next (setData st (drop (Z.to_nat n) (data st)))
      else Crash
  | SReadUint16 x =>
      match bigEndian 2 0 (data st) with
      | Some z => Next (setLocal st x z)
      | None => Crash
      end
  | SIfNegElseBig x neg big other =>
      if locals st x <? 0 then execs neg st
      else if 32767 <? locals st x then execs big st
      else execs other st
  | SIfNeg x body =>
      if locals st x <? 0 then execs body st else Next st
  | SCall constructName =>
      match construct constructName (data st) (spare st) with
      | CallOk x =>
          Next {| data := data st; spare := spare st; locals := locals st;
                  err := None; v := Some x; res := res st |}
      | CallErr x =>
          Next {| data := data st; spare := spare st; locals := locals st;
                  err := Some None; v := Some x; res := res st |}
      | CallPanic => Crash
      end
  | SReturnUvarint =>
      Return (VarintReadFailure (match err st with Some e => e | None => None end))
  | SReturnNullField _ => Return UnexpectedNull
  | SReturnNullGroup => Return UnexpectedNull
  | SReturnInvalidLength _ => Return (InvalidLength (locals st StringLen))
  | SReturnBuilding _ => Return BuildingFailure
  end.

Fixpoint execAll (l : list stmt) (st : goState) : outcome :=
  match l with
  | [] => Next st
  | s :: l' => obind (exec s st) (execAll l')
  end.
End exec.

(** The state in which a decoder starts: nothing read, the result empty. *)
Definition startState (d sp : list byte) : goState :=
  {| data := d; spare := sp; locals := fun _ => 0; err := None; v := None; res := ∅ |}.

(** A unit with no other record. *)
Definition noConstruct (_ : string) (_ _ : list byte) : callResult := CallPanic.

Import Byte.

(** ** What the generated decoder leaves behind *)

Definition outcomeData (o : outcome) : option (list byte) :=
  match o with
  | Next st => Some (data st)
  | _ => None
  end.

Definition outcomeLocal (o : outcome) (x : var) : option Z :=
  match o with
  | Next st => Some (locals st x)
  | _ => None
  end.

Definition outcomeField (o : outcome) (f : string) : option value :=
  match o with
  | Next st => res st !! f
  | _ => None
  end.

(** ** Predicates of the statements below *)

(** A continuation of the matcher that keeps the number of capture slots. *)
Definition keepsLength (n : nat) (k : nat -> string -> captures -> option captures) : Prop :=
  forall p s c c', length c = n -> k p s c = Some c' -> length c' = n.

Definition matcherKeepsLength (n : nat) (m : matcher) : Prop :=
  forall k, keepsLength n k ->
  forall pos rest cs c', length cs = n -> m pos rest cs k = Some c' -> length c' = n.

(** The code buffer at indentation level [lvl], as [NewCodeBuffer] indents. *)
Definition atLevel (cb : codeBuffer) (lvl : nat) : Prop :=
  indentLevel cb = Z.of_nat lvl /\ indent cb = "    ".

Definition emit (cb : codeBuffer) (ls : list string) (lvl : nat) : codeBuffer :=
  {| lines := lines cb ++ ls; indentLevel := Z.of_nat lvl; indent := "    " |}.

(** [runs m a b ls x]: started at indentation level [a], the call [m] ends
    normally with result [x] at level [b], having written the lines [ls]. *)
Definition runs {A} (m : M A) (a b : nat) (ls : list string) (x : A) : Prop :=
  forall cb, atLevel cb a -> m cb = Ok (x, emit cb ls b).

(** Calls that never return an error, calls that always panic. *)
Definition noErr {A} (m : M A) : Prop := forall cb e, m cb <> Err e.

Definition panics {A} (m : M A) : Prop := forall cb, exists p, m cb = Panic p.

Definition notErr {A} (r : result A) : Prop := forall e, r <> Err e.

(** [visited f fields]: [f] is one of [fields] or lies below one of them, at
    any depth. *)
Inductive visited (f : MessageField) : list MessageField -> Prop :=
| visited_here fields : In f fields -> visited f fields
| visited_below parent fields :
    In parent fields -> visited f (f_Fields parent) -> visited f fields.

(** The types [collectImports] needs nothing but encoding/binary for. *)
Definition intKind (t : string) : bool :=
  String.eqb t "int8" || String.eqb t "int16" || String.eqb t "int32" || String.eqb t "int64".

(** The fields [collectImports] looks at. *)
Definition importFields (spec : Message) : list MessageField :=
  (m_Fields spec ++ flat_map cs_Fields (m_CommonStructs spec))%list.

(** ** Example messages *)

Definition intsOnly : Message :=
  mkMessage "request" "Ints" "0" "none"
    [field "a" "int8" "0+"; field "b" "int16" "0+"; field "c" "int32" "0+"]
    [mkCommonStruct "Pair" "0+" [field "k" "int64" "0+"; field "v" "int32" "0+"]].


(** A message named Foo with the given fields and no common struct. *)
Definition messageFoo (fields : list MessageField) : Message :=
  mkMessage "request" "Foo" "0-3" "none" fields [].

(** The buffer [generateFile] leaves for a message Foo that imports
    [imports], has the struct fields [structLines], the record definitions
    [records] and the decode statements [body]. *)
Definition fileFoo (imports structLines records body : list string) : codeBuffer :=
  {| lines := (["package kafka"; "import ("] ++ imports
                 ++ [")"; "type Foo struct {"] ++ structLines ++ ["}"] ++ records
                 ++ ["func ReadFoo(data []byte, version int) (Foo, error) {";
                     "    var res Foo"]
                 ++ body ++ ["    return res, nil"; "}"])%list;
     indentLevel := 0;
     indent := "    " |}.

Definition importLine (dep : string) : string := "    " +:+ dq +:+ dep +:+ dq.

Definition allImports : list string :=
  [importLine "bytes"; importLine "encoding/binary"; importLine "fmt"].

(** Three fields with a range, a minimum and an exact version. *)
Definition versioned : list MessageField :=
  [field "x" "int32" "0-3"; field "y" "int32" "2+"; field "z" "int32" "1"].

Definition int8Array : MessageField := field "xs" "[]int8" "0+".

Definition twoInts : list MessageField :=
  [field "a" "int32" "0+"; field "b" "int32" "0+"].

Definition stringField : MessageField := field "s" "string" "0+".

Definition uuidField : MessageField := field "id" "uuid" "0+".

(** A string field and an int32 field with version 1 and a default value. *)
Definition defaultedString (d : any) : MessageField :=
  mkMessageField "y" "string" "1" EmptyString (Some d) None [].

Definition defaultedInt (d : any) : MessageField :=
  mkMessageField "n" "int32" "1" EmptyString (Some d) None [].

(** An array of an inline struct whose type name starts in lower case. *)
Definition inlineTopic : MessageField :=
  mkMessageField "t" "[]topic" "0+" EmptyString None None [field "a" "int8" "0+"].

(** A field of a type that is neither primitive nor declared. *)
Definition unknownType : MessageField := field "x" "nosuch" "0+".

(** A common struct one of whose fields has a field without name and type. *)
Definition emptyBelowCommon : Message :=
  mkMessage "request" "Foo" "0-3" "none" []
    [mkCommonStruct "Common" "0+"
       [mkMessageField "g" "int8" "0+" EmptyString None None
          [field EmptyString EmptyString EmptyString]]].

(** A message one of whose fields has no name. *)
Definition emptyName : Message := messageFoo [field "a" "int8" "0+"; field EmptyString "int8" "0+"].

(** ** The states of the [dependsOn] map of [collectImports] *)

Definition importsNone : gmap string bool :=
  <["bytes" := false]> (<["encoding/binary" := true]> (<["fmt" := false]> ∅)).
Definition importsFmt : gmap string bool :=
  <["bytes" := false]> (<["encoding/binary" := true]> (<["fmt" := true]> ∅)).
Definition importsAll : gmap string bool :=
  <["bytes" := true]> (<["encoding/binary" := true]> (<["fmt" := true]> ∅)).

Definition importState (d : gmap string bool) : Prop :=
  d = importsNone \/ d = importsFmt \/ d = importsAll.

(** ** Runs of a character class, for the greedy loops of the matcher *)

(** The text after the longest prefix whose characters satisfy [P], and the
    length of that prefix. *)
Fixpoint skipClass (P : ascii -> bool) (s : string) : string :=
  match s with
  | String a r => if P a then skipClass P r else s
  | EmptyString => EmptyString
  end.

Fixpoint runLength (P : ascii -> bool) (s : string) : nat :=
  match s with
  | String a r => if P a then S (runLength P r) else O
  | EmptyString => O
  end.

(** [m] matches one character of the class [P]. *)
Definition matchesClass (P : ascii -> bool) (m : matcher) : Prop :=
  (forall pos a r cs k, m pos (String a r) cs k = if P a then k (S pos) r cs else None)
  /\ (forall pos cs k, m pos EmptyString cs k = None).

(** [strings.Contains(s, string(c))] for one byte [c]. *)
Fixpoint contains (c : ascii) (s : string) : bool :=
  match s with
  | EmptyString => false
  | String a r => Ascii.eqb a c || contains c r
  end.

Definition notNewline (a : ascii) : bool := negb (Ascii.eqb a newline).

(** ** Messages that [generateFile] accepts *)

(** A type that [arrayRegex] matches: not empty and without a newline. *)
Definition goodType (t : string) : Prop :=
  t <> EmptyString /\ contains newline t = false.

Definition goodField (f : MessageField) : Prop :=
  f_Name f <> EmptyString /\ goodType (f_Type f).

Definition goodSpec (spec : Message) : Prop :=
  (forall f, visited f (m_Fields spec) -> goodField f)
  /\ (forall cs, In cs (m_CommonStructs spec) ->
        cs_Name cs <> EmptyString /\ forall f, In f (cs_Fields cs) -> goodField f).

(** A message with a nested inline struct and a common struct. *)
Definition nestedMessage : Message :=
  mkMessage "request" "Foo" "0-3" "none"
    [field "a" "int8" "0+";
     mkMessageField "ts" "[]topic" "0+" EmptyString None None
       [field "name" "string" "0+";
        mkMessageField "p" "part" "0+" EmptyString None None [field "ids" "[]uuid" "0+"]];
     field "c" "[]Pair" "0+"]
    [mkCommonStruct "Pair" "0+" [field "k" "bytes" "0+"; field "v" "int64" "0+"]].

(** ** Loops of the generated decoders *)

(** [n] turns of a loop body, turn by turn. *)
Fixpoint iterN (n : nat) (f : goState -> outcome) (st : goState) : outcome :=
  match n with
  | O => Next st
  | S n' => obind (f st) (iterN n' f)
  end.

(** The elements of the slice [res.F]; a field never assigned is the nil
    slice. *)
Definition fieldList (st : goState) (F : string) : list value :=
  match res st !! F with
  | Some (VList l) => l
  | _ => []
  end.

(** [int8(b)] as a value of the result. *)
Definition int8Value (b : byte) : value := VInt (toSigned 8 (byteZ b)).

(** ** [skipCommentLines] *)

(** [\s]: tab, newline, form feed, carriage return and space. *)
Definition isSpace (a : ascii) : bool :=
  let n := nat_of_ascii a in
  ((n =? 9) || (n =? 10) || (n =? 12) || (n =? 13) || (n =? 32))%nat.

(** One character of a class, [r*] (greedy) and [r1 r2] on matchers, for the
    two operators of [isCommentedLineRegex] that [regex] has no case for. *)
Definition classM (P : ascii -> bool) : matcher := fun pos rest cs k =>
  match rest with
  | String a rest' => if P a then k (S pos) rest' cs else None
  | EmptyString => None
  end.

Definition starM (m : matcher) : matcher := fun pos rest cs k =>
  match plusLoop m k (S (String.length rest)) pos rest cs with
  | Some c => Some c
  | None => k pos rest cs
  end.

Definition seqM (m1 m2 : matcher) : matcher := fun pos rest cs k =>
  m1 pos rest cs (fun p s c => m2 p s c k).

Definition isCommentedLineRegex : matcher :=   (* "^\\s*//.*$" *)
  seqM (rmatch RBol)
    (seqM (starM (classM isSpace))
       (seqM (rmatch (RChar "/"))
          (seqM (rmatch (RChar "/"))
             (seqM (starM (rmatch RAny)) (rmatch REol))))).

(** [re.MatchString(s)]: whether the pattern matches at some position. *)
Fixpoint matchFrom (m : matcher) (pos : nat) (rest : string) : bool :=
  match m pos rest [None] (fun _ _ c => Some c) with
  | Some _ => true
  | None =>
      match rest with
      | EmptyString => false
      | String _ rest' => matchFrom m (S pos) rest'
      end
  end.

Definition MatchString (m : matcher) (s : string) : bool := matchFrom m O s.

(** [strings.Split(s, "\n")]: the texts between the newlines, one more than
    there are newlines. *)
Fixpoint splitLines (s : string) : list string :=
  match s with
  | EmptyString => [EmptyString]
  | String c r =>
      if Ascii.eqb c newline then EmptyString :: splitLines r
      else match splitLines r with
           | l :: ls => String c l :: ls
           | [] => [String c EmptyString]
           end
  end.

(** The loop of [skipCommentLines] over the lines, [sb] being the builder. *)
Fixpoint skipLoop (ls : list string) (sb : string) : string :=
  match ls with
  | [] => sb
  | s :: ls' =>
      skipLoop ls' (if MatchString isCommentedLineRegex s then sb
                    else (sb +:+ s) +:+ String newline EmptyString)
  end.

Definition skipCommentLines (data : string) : string :=
  skipLoop (splitLines data) EmptyString.

(** Whether the first characters of [s] after its white space are [//] and no
    newline follows them. *)
Definition startsComment (s : string) : bool :=
  match skipClass isSpace s with
  | String "/" (String "/" u) => negb (contains newline u)
  | _ => false
  end.

(** The lines, each followed by a newline. *)
Fixpoint joinLines (ls : list string) : string :=
  match ls with
  | [] => EmptyString
  | s :: ls' => (s +:+ String newline EmptyString) +:+ joinLines ls'
  end.

(** ** [WriteTo] ([pkg/util]) *)

(** [cb.WriteTo(other)], [other] being the buffer the call writes into: every
    line of [cb] is handed to [other.AddLine] as a format without
    arguments. *)
Definition WriteTo (cb : codeBuffer) : M unit :=
  forEach (lines cb) (fun line => AddLine line []).

(** An ASCII letter, the verbs of [fmt]. *)
Definition isLetter (a : ascii) : bool :=
  let n := nat_of_ascii a in
  (((97 <=? n) && (n <=? 122)) || ((65 <=? n) && (n <=? 90)))%nat.

(** ** Common structs that differ below their fields *)

(** Two fields that agree in all but their description, their ignorable flag
    and their nested fields, and either both or neither have nested fields. *)
Definition sameAbove (f g : MessageField) : Prop :=
  f_Name f = f_Name g /\ f_Type f = f_Type g /\ f_Versions f = f_Versions g
  /\ f_Default f = f_Default g /\ hasFields f = hasFields g.

Definition sameCommonStruct (c1 c2 : CommonStruct) : Prop :=
  cs_Name c1 = cs_Name c2 /\ cs_Versions c1 = cs_Versions c2
  /\ Forall2 sameAbove (cs_Fields c1) (cs_Fields c2).

(** Two common structs named Pair whose field [k] has different fields
    below it. *)
Definition pairWith (below : list MessageField) : CommonStruct :=
  mkCommonStruct "Pair" "0+"
    [mkMessageField "k" "[]part" "0+" EmptyString None None below; field "v" "int64" "0+"].

(** A message with one common struct. *)
Definition messageWith (cs : CommonStruct) : Message :=
  mkMessage "request" "Foo" "0-3" "none" [field "c" "[]Pair" "0+"] [cs].

(** * Properties *)

(** ** The regular expressions *)

Section captures_length.
Variable n : nat.

Lemma plusLoop_length m :
  matcherKeepsLength n m ->
  forall fuel k, keepsLength n k ->
  forall pos rest cs c', length cs = n -> plusLoop m k fuel pos rest cs = Some c' -> length c' = n.
Proof.
  intros Hm fuel. induction fuel as [|fuel IH]; intros k Hk pos rest cs c' Hcs H.
  - discriminate.
  - simpl in H. eapply Hm; [|exact Hcs|exact H].
    intros p s c c2 Hc Hc2. destruct (pos <? p)%nat.
    + destruct (plusLoop m k fuel p s c) eqn:E.
      * inversion Hc2; subst. eapply IH; eauto.
      * eapply Hk; eauto.
    + eapply Hk; eauto.
Qed.

Lemma rmatch_length r : matcherKeepsLength n (rmatch r).
Proof.
  induction r; intros k Hk pos rest cs c' Hcs H; simpl in H.
  - destruct rest as [|a rest]; [discriminate|].
    destruct (Ascii.eqb a c); [eapply Hk; eauto|discriminate].
  - destruct rest as [|a rest]; [discriminate|].
    destruct (isDigit a); [eapply Hk; eauto|discriminate].
  - destruct rest as [|a rest]; [discriminate|].
    destruct (Ascii.eqb a newline); [discriminate|eapply Hk; eauto].
  - destruct (pos =? 0)%nat; [eapply Hk; eauto|discriminate].
  - destruct rest; [eapply Hk; eauto|discriminate].
  - eapply IHr1; [|exact Hcs|exact H]. intros p s c c2 Hc Hc2. eapply IHr2; eauto.
  - exact (plusLoop_length (rmatch r) IHr (S (String.length rest)) k Hk pos rest cs c' Hcs H).
  - destruct (rmatch r pos rest cs k) eqn:E.
    + inversion H; subst. eapply IHr; eauto.
    + eapply Hk; eauto.
  - eapply IHr; [|exact Hcs|exact H]. intros p s c c2 Hc Hc2.
    eapply Hk in Hc2; [exact Hc2|]. rewrite length_insert. exact Hc.
Qed.
End captures_length.

Lemma findFrom_length r pos rest cs :
  findFrom r pos rest = Some cs -> length cs = S (ngroups r).
Proof.
  revert pos. induction rest as [|a rest IH]; intros pos H; simpl in H.
  - destruct (rmatch r pos EmptyString _ _) eqn:E; [|discriminate].
    inversion H; subst. eapply (rmatch_length (S (ngroups r))); [| |exact E].
    + intros p s c c' Hc Hc'. inversion Hc'; subst. rewrite length_insert. exact Hc.
    + simpl. f_equal. apply length_replicate.
  - destruct (rmatch r pos (String a rest) _ _) eqn:E.
    + inversion H; subst. eapply (rmatch_length (S (ngroups r))); [| |exact E].
      * intros p s c c' Hc Hc'. inversion Hc'; subst. rewrite length_insert. exact Hc.
      * simpl. f_equal. apply length_replicate.
    + eauto.
Qed.

(** [FindStringSubmatch] returns the nil slice or one string for the match and
    one for every group. *)
Lemma FindStringSubmatch_length r s :
  length (FindStringSubmatch r s) = O \/ length (FindStringSubmatch r s) = S (ngroups r).
Proof.
  unfold FindStringSubmatch. destruct (findFrom r 0 s) eqn:E.
  - right. rewrite length_map. eapply findFrom_length; eauto.
  - left. reflexivity.
Qed.

(** ** The code buffer monad *)

Lemma bind_ok {A B} (m : M A) (k : A -> M B) cb a cb' :
  m cb = Ok (a, cb') -> (m ≫= k) cb = k a cb'.
Proof. intros H. unfold mbind, M_bind. rewrite H. reflexivity. Qed.

Lemma bind_panic {A B} (m : M A) (k : A -> M B) cb p :
  m cb = Panic p -> (m ≫= k) cb = Panic p.
Proof. intros H. unfold mbind, M_bind. rewrite H. reflexivity. Qed.

(** The length tests of [addVersionIfClause] never hold: a match of the range
    pattern has three strings, a match of the other two has two. *)
Lemma addVersionIfClause_false versions cb :
  addVersionIfClause versions cb = Ok (false, cb).
Proof.
  unfold addVersionIfClause.
  destruct (FindStringSubmatch_length versionRangeRegexp versions) as [H|H];
    rewrite H; simpl;
  destruct (FindStringSubmatch_length versionMinRegexp versions) as [H1|H1];
    rewrite H1; simpl;
  destruct (FindStringSubmatch_length versionRegexp versions) as [H2|H2];
    rewrite H2; reflexivity.
Qed.

(** ** What a call writes into the code buffer *)

Lemma atLevel_emit cb ls lvl : atLevel (emit cb ls lvl) lvl.
Proof. split; reflexivity. Qed.

Lemma emit_emit cb l1 l2 a b : emit (emit cb l1 a) l2 b = emit cb (l1 ++ l2) b.
Proof. unfold emit. simpl. rewrite <- app_assoc. reflexivity. Qed.

Lemma runs_ret {A} (x : A) a : runs (mret x) a a [] x.
Proof.
  intros [ls l i] [H1 H2]. simpl in *. subst. unfold mret, M_ret, emit. simpl.
  rewrite app_nil_r. reflexivity.
Qed.

Lemma runs_bind {A B} (m : M A) (k : A -> M B) a b c l1 l2 x y :
  runs m a b l1 x -> runs (k x) b c l2 y -> runs (m ≫= k) a c (l1 ++ l2) y.
Proof.
  intros Hm Hk cb Hcb. rewrite (bind_ok _ _ _ _ _ (Hm cb Hcb)).
  rewrite (Hk _ (atLevel_emit _ _ _)). rewrite emit_emit. reflexivity.
Qed.

Lemma runs_eq {A} (m : M A) a b ls ls' x :
  runs m a b ls x -> ls = ls' -> runs m a b ls' x.
Proof. intros H <-. exact H. Qed.

Lemma runs_AddLine format args a : runs (AddLine format args) a a [line a format args] tt.
Proof.
  intros [ls l i] [H1 H2]. simpl in *. subst. unfold AddLine, emit, indentSpaces, line. simpl.
  rewrite Nat2Z.id. reflexivity.
Qed.

Lemma wrapInt_small z : -1000 <= z <= 1000 -> wrapInt z = z.
Proof.
  intros H. unfold wrapInt.
  change (2 ^ 63) with 9223372036854775808. change (2 ^ 64) with 18446744073709551616.
  rewrite Z.mod_small by lia. lia.
Qed.

Lemma runs_IncrementIndent a : (a < 1000)%nat -> runs IncrementIndent a (S a) [] tt.
Proof.
  intros Ha [ls l i] [H1 H2]. simpl in *. subst. unfold IncrementIndent, emit. simpl.
  rewrite wrapInt_small by lia. rewrite app_nil_r.
  replace (Z.of_nat a + 1) with (Z.pos (Pos.of_succ_nat a)) by lia. reflexivity.
Qed.

Lemma runs_DecrementIndent a : (a < 1000)%nat -> runs DecrementIndent (S a) a [] tt.
Proof.
  intros Ha [ls l i] [H1 H2]. simpl in *. subst. unfold DecrementIndent, emit.
  cbv zeta. cbn [lines indentLevel indent]. rewrite wrapInt_small by lia.
  replace (Z.of_nat (S a) - 1) with (Z.of_nat a) by lia.
  destruct (Z.ltb_spec (Z.of_nat a) 0); [lia|]. rewrite app_nil_r. reflexivity.
Qed.

Lemma runs_liftR {A} (r : result A) x a : r = Ok x -> runs (liftR r) a a [] x.
Proof.
  intros -> [ls l i] [H1 H2]. simpl in *. subst. unfold liftR, emit. simpl.
  rewrite app_nil_r. reflexivity.
Qed.

Lemma runs_cap s F a : capitalize s = Ok F -> runs (cap s) a a [] (ArgStr F).
Proof. intros H. apply runs_liftR. rewrite H. reflexivity. Qed.

Lemma runs_addVersionIfClause versions a : runs (addVersionIfClause versions) a a [] false.
Proof.
  intros [ls l i] [H1 H2]. simpl in *. subst. rewrite addVersionIfClause_false.
  unfold emit. simpl. rewrite app_nil_r. reflexivity.
Qed.

(** The lines of a sequence of calls, call by call.  [runs_call] holds the
    rules for the generator's own functions and grows with them. *)
Ltac runs_call := fail.

Ltac runs_steps :=
  lazymatch goal with
  | |- runs (_ ≫= _) _ _ _ _ => eapply runs_bind; [runs_steps | cbv beta iota; runs_steps]
  | |- runs (AddLine _ _) _ _ _ _ => apply runs_AddLine
  | |- runs IncrementIndent _ _ _ _ => apply runs_IncrementIndent; lia
  | |- runs DecrementIndent _ _ _ _ => apply runs_DecrementIndent; lia
  | |- runs (cap _) _ _ _ _ => apply runs_cap; eassumption
  | |- runs (liftR _) _ _ _ _ => apply runs_liftR; eassumption
  | |- runs (addVersionIfClause _) _ _ _ _ => apply runs_addVersionIfClause
  | |- runs (mret _) _ _ _ _ => apply runs_ret
  | |- _ => runs_call
  end.

Lemma runs_addReadString fieldName F appendToArray a :
  capitalize fieldName = Ok F -> (a < 900)%nat ->
  runs (addReadString fieldName appendToArray) a a
    (render a (readStringCode fieldName F appendToArray)) tt.
Proof.
  intros HF Ha. unfold addReadString.
  destruct appendToArray; (eapply runs_eq; [runs_steps | reflexivity]).
Qed.

Lemma runs_addReadBytes fieldName F appendToArray a :
  capitalize fieldName = Ok F -> (a < 900)%nat ->
  runs (addReadBytes fieldName appendToArray) a a
    (render a (readBytesCode F appendToArray)) tt.
Proof.
  intros HF Ha. unfold addReadBytes.
  destruct appendToArray; (eapply runs_eq; [runs_steps | reflexivity]).
Qed.

Lemma runs_addAllocateCommonStruct fieldType isArray ft C a :
  deconstructFieldType fieldType = Ok (isArray, ft) ->
  capitalize ft = Ok C -> (a < 900)%nat ->
  runs (addAllocateCommonStruct fieldType) a a
    (renderAll a (allocateCode false EmptyString C)) tt.
Proof.
  intros Hd HC Ha. unfold addAllocateCommonStruct.
  eapply runs_eq; [runs_steps | reflexivity].
Qed.

Lemma runs_addAllocateInlineStruct name fieldType isArray ft C a :
  deconstructFieldType fieldType = Ok (isArray, ft) ->
  capitalize ft = Ok C -> (a < 900)%nat ->
  runs (addAllocateInlineStruct name fieldType) a a
    (renderAll a (allocateCode true name C)) tt.
Proof.
  intros Hd HC Ha. unfold addAllocateInlineStruct.
  eapply runs_eq; [runs_steps | reflexivity].
Qed.


Lemma render_SBlock lvl body :
  render lvl (SBlock body)
  = ([line lvl "{" []] ++ renderAll (S lvl) body ++ [line lvl "}" []])%list.
Proof. reflexivity. Qed.

Lemma render_SFor lvl x body :
  render lvl (SFor x body)
  = ([line lvl ("for i := uint64(0); i < " +:+ varName x +:+ "; i++ {") []]
       ++ renderAll (S lvl) body ++ [line lvl "}" []])%list.
Proof. reflexivity. Qed.

Lemma renderAll_singleton lvl s : renderAll lvl [s] = render lvl s.
Proof. unfold renderAll. cbn [flat_map]. apply app_nil_r. Qed.

Lemma renderAll_app lvl l1 l2 :
  renderAll lvl (l1 ++ l2) = (renderAll lvl l1 ++ renderAll lvl l2)%list.
Proof. unfold renderAll. apply flat_map_app. Qed.

Ltac runs_call ::=
  lazymatch goal with
  | |- runs (addReadString _ _) _ _ _ _ => eapply runs_addReadString; [eassumption | lia]
  | |- runs (addReadBytes _ _) _ _ _ _ => eapply runs_addReadBytes; [eassumption | lia]
  | |- runs (addAllocateInlineStruct _ _) _ _ _ _ =>
      eapply runs_addAllocateInlineStruct; [eassumption | eassumption | lia]
  | |- runs (addAllocateCommonStruct _) _ _ _ _ =>
      eapply runs_addAllocateCommonStruct; [eassumption | eassumption | lia]
  end.

Lemma runs_addReadElement name field isArray ft F C a :
  deconstructFieldType (f_Type field) = Ok (isArray, ft) ->
  capitalize (f_Name field) = Ok F ->
  (isPrimitive ft = false -> capitalize ft = Ok C) -> (a < 800)%nat ->
  runs (addReadElement name field ft) a a (renderAll a (elementCode name field F ft C)) tt.
Proof.
  intros Hd HF HC Ha. unfold addReadElement, elementCode, isPrimitive in *.
  destruct (String.eqb ft "int8"); [eapply runs_eq; [runs_steps | reflexivity]|].
  destruct (String.eqb ft "int16"); [eapply runs_eq; [runs_steps | reflexivity]|].
  destruct (String.eqb ft "int32"); [eapply runs_eq; [runs_steps | reflexivity]|].
  destruct (String.eqb ft "int64"); [eapply runs_eq; [runs_steps | reflexivity]|].
  destruct (String.eqb ft "string");
    [eapply runs_eq; [runs_steps | symmetry; apply renderAll_singleton]|].
  destruct (String.eqb ft "uuid"); [eapply runs_eq; [runs_steps | reflexivity]|].
  destruct (String.eqb ft "bytes");
    [eapply runs_eq; [runs_steps | symmetry; apply renderAll_singleton]|].
  specialize (HC eq_refl).
  destruct (hasFields field); (eapply runs_eq; [runs_steps | reflexivity]).
Qed.

Lemma runs_addReadScalar name field isArray ft F C a :
  deconstructFieldType (f_Type field) = Ok (isArray, ft) ->
  capitalize (f_Name field) = Ok F ->
  (isPrimitive ft = false -> capitalize ft = Ok C) -> (a < 800)%nat ->
  runs (addReadScalar name field ft) a a (renderAll a (scalarCode name field F ft C)) tt.
Proof.
  intros Hd HF HC Ha. unfold addReadScalar, scalarCode, isPrimitive in *.
  destruct (String.eqb ft "int8"); [eapply runs_eq; [runs_steps | reflexivity]|].
  destruct (String.eqb ft "int16"); [eapply runs_eq; [runs_steps | reflexivity]|].
  destruct (String.eqb ft "int32"); [eapply runs_eq; [runs_steps | reflexivity]|].
  destruct (String.eqb ft "int64"); [eapply runs_eq; [runs_steps | reflexivity]|].
  destruct (String.eqb ft "string");
    [eapply runs_eq; [runs_steps | symmetry; apply renderAll_singleton]|].
  destruct (String.eqb ft "uuid"); [eapply runs_eq; [runs_steps | reflexivity]|].
  destruct (String.eqb ft "bytes");
    [eapply runs_eq; [runs_steps | symmetry; apply renderAll_singleton]|].
  specialize (HC eq_refl).
  destruct (hasFields field); (eapply runs_eq; [runs_steps | reflexivity]).
Qed.

Ltac runs_call ::=
  lazymatch goal with
  | |- runs (addReadString _ _) _ _ _ _ => eapply runs_addReadString; [eassumption | lia]
  | |- runs (addReadBytes _ _) _ _ _ _ => eapply runs_addReadBytes; [eassumption | lia]
  | |- runs (addAllocateInlineStruct _ _) _ _ _ _ =>
      eapply runs_addAllocateInlineStruct; [eassumption | eassumption | lia]
  | |- runs (addAllocateCommonStruct _) _ _ _ _ =>
      eapply runs_addAllocateCommonStruct; [eassumption | eassumption | lia]
  | |- runs (addReadElement _ _ _) _ _ _ _ =>
      eapply runs_addReadElement; [eassumption | eassumption | eassumption | lia]
  | |- runs (addReadScalar _ _ _) _ _ _ _ =>
      eapply runs_addReadScalar; [eassumption | eassumption | eassumption | lia]
  end.

Lemma renderAll_arrayCode lvl element :
  renderAll lvl (arrayCode element)
  = ([line lvl "{" [];
      line (S lvl) "arrLen, err := binary.ReadUvarint(bytes.NewReader(data))" [];
      line (S lvl) "if err != nil {" [];
      line (S (S lvl)) ("return res, fmt.Errorf(" +:+ dq +:+ "problem reading uvarint: %%w"
                          +:+ dq +:+ ", err)") [];
      line (S lvl) "}" [];
      line (S lvl) "arrLen--" [];
      line (S lvl) "for i := uint64(0); i < arrLen; i++ {" []]
       ++ renderAll (S (S lvl)) element ++ [line (S lvl) "}" []; line lvl "}" []])%list.
Proof.
  unfold arrayCode. rewrite renderAll_singleton, render_SBlock.
  change (renderAll (S lvl) [SReadUvarint ArrLen; SIfErr [SReturnUvarint]; SDecr ArrLen;
                             SFor ArrLen element])
    with (render (S lvl) (SReadUvarint ArrLen) ++ render (S lvl) (SIfErr [SReturnUvarint])
            ++ render (S lvl) (SDecr ArrLen) ++ render (S lvl) (SFor ArrLen element) ++ [])%list.
  rewrite render_SFor. cbn [render app]. rewrite <- !app_assoc. reflexivity.
Qed.

(** The lines [addReadField] writes are the text of [readFieldCode]: no
    version guard, and the statements of the field at the level at which the
    call started. *)
Lemma runs_addReadField name field code a :
  readFieldCode name field = Ok code -> (a < 700)%nat ->
  runs (addReadField name field) a a (renderAll a code) tt.
Proof.
  intros Hc Ha. unfold readFieldCode in Hc.
  destruct (deconstructFieldType (f_Type field)) as [[isArray ft]| |] eqn:Hd; try discriminate.
  simpl in Hc.
  destruct (capitalize (f_Name field)) as [F| |] eqn:HF; try discriminate.
  simpl in Hc.
  assert (HC : exists C, (isPrimitive ft = false -> capitalize ft = Ok C) /\
              code = if isArray then arrayCode (elementCode name field F ft C)
                     else scalarCode name field F ft C).
  { destruct (isPrimitive ft).
    - exists EmptyString. split; [discriminate|]. simpl in Hc. congruence.
    - destruct (capitalize ft) as [C| |]; try discriminate. exists C. split; [reflexivity|].
      simpl in Hc. congruence. }
  destruct HC as [C [HC ->]]. unfold addReadField.
  destruct isArray.
  - eapply runs_eq; [runs_steps |].
    rewrite renderAll_arrayCode. cbn [app]. rewrite ?app_nil_r. reflexivity.
  - eapply runs_eq; [runs_steps |]. rewrite !app_nil_r. reflexivity.
Qed.

(** The same, as an equation on the code buffer. *)
Lemma addReadField_lines name field code cb a :
  readFieldCode name field = Ok code -> (a < 700)%nat -> atLevel cb a ->
  addReadField name field cb = Ok (tt, emit cb (renderAll a code) a).
Proof. intros Hc Ha Hcb. exact (runs_addReadField name field code a Hc Ha cb Hcb). Qed.

(** ** Calls that never return an error, calls that always panic *)

Lemma noErr_ret {A} (x : A) : noErr (mret x).
Proof. intros cb e. discriminate. Qed.

Lemma noErr_bind {A B} (m : M A) (k : A -> M B) :
  noErr m -> (forall a, noErr (k a)) -> noErr (m ≫= k).
Proof.
  intros Hm Hk cb e. unfold mbind, M_bind. specialize (Hm cb).
  destruct (m cb) as [[a cb']|e'|p]; [apply Hk | exfalso; exact (Hm e' eq_refl) | discriminate].
Qed.

Lemma noErr_AddLine format args : noErr (AddLine format args).
Proof. intros cb e. discriminate. Qed.

Lemma noErr_IncrementIndent : noErr IncrementIndent.
Proof. intros cb e. discriminate. Qed.

Lemma noErr_DecrementIndent : noErr DecrementIndent.
Proof. intros cb e. unfold DecrementIndent. cbv zeta. destruct (_ <? 0); discriminate. Qed.

Lemma noErr_liftR {A} (r : result A) : notErr r -> noErr (liftR r).
Proof. intros Hr cb e. unfold liftR. specialize (Hr e). destruct r; congruence. Qed.

Lemma notErr_capitalize s : notErr (capitalize s).
Proof. intros e. destruct s; discriminate. Qed.

Lemma notErr_index m i : notErr (index m i).
Proof. intros e. unfold index. destruct (m !! i); discriminate. Qed.

Lemma notErr_rbind {A B} (r : result A) (f : A -> result B) :
  notErr r -> (forall a, notErr (f a)) -> notErr (rbind r f).
Proof. intros Hr Hf e. specialize (Hr e). destruct r; simpl; [apply Hf | congruence | discriminate]. Qed.

Lemma notErr_Ok {A} (a : A) : notErr (Ok a).
Proof. intros e. discriminate. Qed.

Lemma notErr_deconstructFieldType t : notErr (deconstructFieldType t).
Proof.
  unfold deconstructFieldType.
  apply notErr_rbind; [apply notErr_index | intros m1].
  apply notErr_rbind; [apply notErr_index | intros m2]. apply notErr_Ok.
Qed.

Lemma noErr_cap s : noErr (cap s).
Proof.
  apply noErr_liftR, notErr_rbind; [apply notErr_capitalize | intros c; apply notErr_Ok].
Qed.

Lemma noErr_bind_version {A} versions (k : bool -> M A) :
  noErr (k false) -> noErr (addVersionIfClause versions ≫= k).
Proof.
  intros Hk cb e. rewrite (bind_ok _ _ _ _ _ (addVersionIfClause_false versions cb)). apply Hk.
Qed.

Lemma noErr_forEach {A} (l : list A) (f : A -> M unit) :
  (forall x, noErr (f x)) -> noErr (forEach l f).
Proof.
  intros Hf. induction l as [|x l IH]; simpl.
  - apply noErr_ret.
  - apply noErr_bind; [apply Hf | intros _; exact IH].
Qed.

Lemma noErr_wrapErr {A} context (m : M A) : noErr m -> noErr (wrapErr context m).
Proof.
  intros Hm cb e. unfold wrapErr. specialize (Hm cb).
  destruct (m cb) as [[a cb']|e'|p]; [discriminate | exfalso; exact (Hm e' eq_refl) | discriminate].
Qed.

Lemma panics_bind_l {A B} (m : M A) (k : A -> M B) : panics m -> panics (m ≫= k).
Proof. intros Hm cb. destruct (Hm cb) as [p Hp]. exists p. apply bind_panic, Hp. Qed.

Lemma panics_bind_r {A B} (m : M A) (k : A -> M B) :
  noErr m -> (forall a, panics (k a)) -> panics (m ≫= k).
Proof.
  intros Hm Hk cb. unfold mbind, M_bind. specialize (Hm cb).
  destruct (m cb) as [[a cb']|e'|p]; [apply Hk | exfalso; exact (Hm e' eq_refl) | eauto].
Qed.

Lemma panics_bind_version {A} versions (k : bool -> M A) :
  panics (k false) -> panics (addVersionIfClause versions ≫= k).
Proof.
  intros Hk cb. rewrite (bind_ok _ _ _ _ _ (addVersionIfClause_false versions cb)). apply Hk.
Qed.

Lemma panics_liftR {A} (r : result A) p : r = Panic p -> panics (liftR r).
Proof. intros -> cb. exists p. reflexivity. Qed.

Lemma panics_forEach {A} (l : list A) (f : A -> M unit) x :
  (forall y, noErr (f y)) -> In x l -> panics (f x) -> panics (forEach l f).
Proof.
  intros Hf Hin Hx. induction l as [|y l IH]; simpl; [destruct Hin|].
  destruct Hin as [->|Hin].
  - apply panics_bind_l, Hx.
  - apply panics_bind_r; [apply Hf | intros _; apply IH, Hin].
Qed.

Lemma panics_wrapErr {A} context (m : M A) : panics m -> panics (wrapErr context m).
Proof. intros Hm cb. destruct (Hm cb) as [p Hp]. exists p. unfold wrapErr. rewrite Hp. reflexivity. Qed.

(** Automation: a sequence of calls none of which returns an error. *)
Ltac noErr_leaf :=
  first [ apply noErr_AddLine | apply noErr_IncrementIndent | apply noErr_DecrementIndent
        | apply noErr_cap | apply noErr_ret
        | apply noErr_liftR, notErr_capitalize
        | apply noErr_liftR, notErr_deconstructFieldType
        | solve [apply noErr_forEach; intros; apply noErr_AddLine]
        | solve [auto] ].

Ltac noErr_go :=
  lazymatch goal with
  | |- noErr (addVersionIfClause _ ≫= _) => apply noErr_bind_version; cbv beta iota; noErr_go
  | |- noErr (_ ≫= _) => apply noErr_bind; [noErr_go | intros; cbv beta iota; noErr_go]
  | |- noErr (if ?b then _ else _) => destruct b; noErr_go
  | |- noErr (let '(_, _) := ?x in _) => destruct x; noErr_go
  | |- noErr (match ?x with Some _ => _ | None => _ end) => destruct x; noErr_go
  | |- _ => noErr_leaf
  end.

Lemma noErr_addReadString fieldName appendToArray : noErr (addReadString fieldName appendToArray).
Proof. unfold addReadString. noErr_go. Qed.

Lemma noErr_addReadBytes fieldName appendToArray : noErr (addReadBytes fieldName appendToArray).
Proof. unfold addReadBytes. noErr_go. Qed.

Lemma noErr_addAllocateCommonStruct fieldType : noErr (addAllocateCommonStruct fieldType).
Proof. unfold addAllocateCommonStruct. noErr_go. Qed.

Lemma noErr_addAllocateInlineStruct name fieldType : noErr (addAllocateInlineStruct name fieldType).
Proof. unfold addAllocateInlineStruct. noErr_go. Qed.

Lemma noErr_addReadElement name field ft : noErr (addReadElement name field ft).
Proof.
  pose proof noErr_addReadString. pose proof noErr_addReadBytes.
  pose proof (noErr_addAllocateCommonStruct (f_Type field)).
  pose proof (noErr_addAllocateInlineStruct name (f_Type field)).
  unfold addReadElement. noErr_go; auto.
Qed.

Lemma noErr_addReadScalar name field ft : noErr (addReadScalar name field ft).
Proof.
  pose proof noErr_addReadString. pose proof noErr_addReadBytes.
  pose proof (noErr_addAllocateCommonStruct (f_Type field)).
  pose proof (noErr_addAllocateInlineStruct name (f_Type field)).
  unfold addReadScalar. noErr_go; auto.
Qed.

(** [addReadField] never returns an error: the only errors it builds are on
    the path behind the version guard, and the guard is never written. *)
Lemma noErr_addReadField name field : noErr (addReadField name field).
Proof.
  pose proof (noErr_addReadElement name field). pose proof (noErr_addReadScalar name field).
  unfold addReadField. noErr_go; auto.
Qed.

Lemma noErr_addStructField name field : noErr (addStructField name field).
Proof. unfold addStructField. cbv zeta. noErr_go. Qed.

Lemma noErr_addStructFields name fields : noErr (addStructFields name fields).
Proof. apply noErr_forEach, noErr_addStructField. Qed.

Lemma noErr_addCommonStruct name cs : noErr (addCommonStruct name cs).
Proof.
  pose proof (noErr_addStructFields name (cs_Fields cs)).
  pose proof (noErr_forEach (cs_Fields cs) _ (noErr_addReadField name)).
  unfold addCommonStruct. noErr_go.
Qed.

Lemma noErr_addInlineStruct name field : noErr (addInlineStruct name field).
Proof.
  pose proof (noErr_addStructFields name (f_Fields field)).
  pose proof (noErr_forEach (f_Fields field) _ (noErr_addReadField name)).
  unfold addInlineStruct. noErr_go.
Qed.

(** *** [collectImports] *)

Lemma notErr_importStep d field : notErr (importStep d field).
Proof.
  unfold importStep. apply notErr_rbind; [apply notErr_deconstructFieldType|].
  intros [isArray ft]. apply notErr_Ok.
Qed.

Lemma notErr_foldR {A B} (f : A -> B -> result A) l :
  (forall a x, notErr (f a x)) -> forall a, notErr (foldR f a l).
Proof.
  intros Hf. induction l as [|x l IH]; intros a; simpl; [apply notErr_Ok|].
  apply notErr_rbind; [apply Hf | exact IH].
Qed.

Lemma notErr_collectImports spec : notErr (collectImports spec).
Proof.
  unfold collectImports. cbv zeta. apply notErr_rbind.
  - apply notErr_foldR. intros a x. apply notErr_importStep.
  - intros d. apply notErr_Ok.
Qed.

Lemma foldR_panics {A B} (f : A -> B -> result A) l x :
  (forall a y, notErr (f a y)) -> In x l -> (forall a, exists p, f a x = Panic p) ->
  forall a, exists p, foldR f a l = Panic p.
Proof.
  intros Hf Hin Hx. induction l as [|y l IH]; intros a; simpl; [destruct Hin|].
  destruct Hin as [->|Hin].
  - destruct (Hx a) as [p Hp]. rewrite Hp. simpl. eauto.
  - pose proof (Hf a y) as Hy. destruct (f a y) as [a'|e|p]; simpl;
      [apply IH, Hin | exfalso; exact (Hy e eq_refl) | eauto].
Qed.

Lemma deconstructFieldType_empty :
  deconstructFieldType EmptyString = Panic (PIndexOutOfRange 1 0).
Proof. reflexivity. Qed.

(** A field whose type is empty makes [collectImports] panic. *)
Lemma collectImports_empty_type spec f :
  In f (m_Fields spec ++ flat_map cs_Fields (m_CommonStructs spec))%list ->
  f_Type f = EmptyString ->
  exists p, collectImports spec = Panic p.
Proof.
  intros Hin Ht. unfold collectImports. cbv zeta.
  destruct (foldR_panics importStep _ f (fun a y => notErr_importStep a y) Hin) with
    (a := (<["bytes" := false]> (<["encoding/binary" := true]> (<["fmt" := false]> ∅))
             : gmap string bool)) as [p Hp].
  - intros a. unfold importStep. rewrite Ht, deconstructFieldType_empty. simpl. eauto.
  - rewrite Hp. simpl. eauto.
Qed.

(** *** The panics of the struct emitters *)

Lemma panics_cap_empty : panics (cap EmptyString).
Proof. intros cb. eexists. reflexivity. Qed.

Ltac panics_skip := apply panics_bind_r; [noErr_go | intros; cbv beta iota].

Lemma panics_addStructField name f :
  f_Name f = EmptyString -> panics (addStructField name f).
Proof.
  intros Hn. unfold addStructField. cbv zeta. rewrite Hn.
  destruct (hasFields f).
  - apply panics_bind_r; [noErr_go|]. intros [isArray ft].
    destruct isArray; apply panics_bind_l, panics_cap_empty.
  - apply panics_bind_l, panics_cap_empty.
Qed.

Lemma panics_addStructFields name fields f :
  In f fields -> f_Name f = EmptyString -> panics (addStructFields name fields).
Proof.
  intros Hin Hn. unfold addStructFields.
  eapply panics_forEach; [intros y; apply noErr_addStructField | exact Hin |].
  apply panics_addStructField, Hn.
Qed.

Lemma panics_addReadField name f :
  f_Type f = EmptyString -> panics (addReadField name f).
Proof.
  intros Ht. unfold addReadField. apply panics_bind_version. cbv beta iota.
  panics_skip. apply panics_bind_l. rewrite Ht.
  eapply panics_liftR. apply deconstructFieldType_empty.
Qed.

Lemma panics_addCommonStruct name cs f :
  In f (cs_Fields cs) -> f_Name f = EmptyString -> panics (addCommonStruct name cs).
Proof.
  intros Hin Hn. unfold addCommonStruct. apply panics_bind_version. cbv beta iota.
  do 3 panics_skip. apply panics_bind_l. eapply panics_addStructFields; eauto.
Qed.

Lemma panics_addInlineStruct name parent f :
  In f (f_Fields parent) -> f_Name f = EmptyString \/ f_Type f = EmptyString ->
  panics (addInlineStruct name parent).
Proof.
  intros Hin Hf. unfold addInlineStruct. apply panics_bind_version. cbv beta iota.
  panics_skip. apply panics_bind_r; [noErr_go|]. intros [isArray fieldType].
  do 2 panics_skip. destruct Hf as [Hn|Ht].
  - apply panics_bind_l. eapply panics_addStructFields; eauto.
  - pose proof (noErr_addStructFields name (f_Fields parent)).
    do 9 panics_skip. apply panics_bind_l.
    eapply panics_forEach; [apply noErr_addReadField | exact Hin |].
    apply panics_addReadField, Ht.
Qed.

(** ** The fields [generateFile] visits *)

Lemma collectInlineStruct_self p : f_Fields p <> [] -> In p (collectInlineStruct p).
Proof. destruct p as [n t v a d i fs]. simpl. destruct fs; [congruence|]. intros _. left. reflexivity. Qed.

Lemma collectInlineStruct_below p q :
  In q (collectInlineStructs (f_Fields p)) -> In q (collectInlineStruct p).
Proof.
  destruct p as [n t v a d i fs]. simpl. destruct fs as [|x fs]; [intros []|].
  intros H. right. exact H.
Qed.

(** A visited field is a field of the message or a field of one of the inline
    structs that [collectInlineStructs] returns. *)
Lemma visited_inline f fields :
  visited f fields ->
  In f fields \/ exists parent, In parent (collectInlineStructs fields) /\ In f (f_Fields parent).
Proof.
  induction 1 as [fields Hin | parent fields Hp Hv IH].
  - left. exact Hin.
  - right. destruct IH as [Hin | [q [Hq Hf]]].
    + exists parent. split; [|exact Hin].
      unfold collectInlineStructs. apply in_flat_map. exists parent. split; [exact Hp|].
      apply collectInlineStruct_self. intros E. rewrite E in Hin. destruct Hin.
    + exists q. split; [|exact Hf].
      unfold collectInlineStructs. apply in_flat_map. exists parent. split; [exact Hp|].
      apply collectInlineStruct_below, Hq.
Qed.

(** ** [generateFile] *)

(** [generateFile] never returns an error. *)
Lemma noErr_generateFile packageName spec : noErr (generateFile packageName spec).
Proof.
  pose proof (noErr_liftR _ (notErr_collectImports spec)).
  pose proof (noErr_addStructFields (m_Name spec) (m_Fields spec)).
  pose proof (noErr_forEach (m_Fields spec) _ (noErr_addReadField (m_Name spec))).
  pose proof (noErr_forEach (m_CommonStructs spec) _
                (fun cs => noErr_wrapErr "problem adding common struct" _
                             (noErr_addCommonStruct (m_Name spec) cs))).
  pose proof (noErr_forEach (collectInlineStructs (m_Fields spec)) _
                (fun f => noErr_wrapErr "problem adding inline struct" _
                            (noErr_addInlineStruct (m_Name spec) f))).
  unfold generateFile. noErr_go.
Qed.

(** The calls of [generateFile] before the ones that panic below. *)
Ltac generateFile_calls packageName spec :=
  pose proof (noErr_liftR _ (notErr_collectImports spec));
  pose proof (noErr_addStructFields (m_Name spec) (m_Fields spec));
  pose proof (noErr_forEach (m_CommonStructs spec) _
                (fun cs => noErr_wrapErr "problem adding common struct" _
                             (noErr_addCommonStruct (m_Name spec) cs))).

Lemma panics_generateFile_type packageName spec f :
  In f (m_Fields spec ++ flat_map cs_Fields (m_CommonStructs spec))%list ->
  f_Type f = EmptyString -> panics (generateFile packageName spec).
Proof.
  intros Hin Ht. unfold generateFile. do 3 panics_skip. apply panics_bind_l.
  destruct (collectImports_empty_type spec f Hin Ht) as [p Hp].
  eapply panics_liftR, Hp.
Qed.

Lemma panics_generateFile_name packageName spec f :
  In f (m_Fields spec) -> f_Name f = EmptyString -> panics (generateFile packageName spec).
Proof.
  intros Hin Hn. generateFile_calls packageName spec. unfold generateFile.
  do 9 panics_skip. apply panics_bind_l. eapply panics_addStructFields; eauto.
Qed.

Lemma panics_generateFile_common packageName spec cs f :
  In cs (m_CommonStructs spec) -> In f (cs_Fields cs) -> f_Name f = EmptyString ->
  panics (generateFile packageName spec).
Proof.
  intros Hcs Hin Hn. generateFile_calls packageName spec. unfold generateFile.
  do 12 panics_skip. apply panics_bind_l.
  eapply panics_forEach; [intros y; apply noErr_wrapErr, noErr_addCommonStruct | exact Hcs |].
  apply panics_wrapErr. eapply panics_addCommonStruct; eauto.
Qed.

Lemma panics_generateFile_inline packageName spec parent f :
  In parent (collectInlineStructs (m_Fields spec)) -> In f (f_Fields parent) ->
  f_Name f = EmptyString \/ f_Type f = EmptyString ->
  panics (generateFile packageName spec).
Proof.
  intros Hp Hin Hf. generateFile_calls packageName spec. unfold generateFile.
  do 13 panics_skip. apply panics_bind_l.
  eapply panics_forEach; [intros y; apply noErr_wrapErr, noErr_addInlineStruct | exact Hp |].
  apply panics_wrapErr. eapply panics_addInlineStruct; eauto.
Qed.

(** ** The imports *)

#[global] Instance string_le_total : Total string_le.
Proof.
  intros s1 s2. unfold string_le. destruct (String.leb_total s1 s2) as [H|H]; rewrite H; simpl; auto.
Qed.

Lemma importStep_intKind d f : intKind (f_Type f) = true -> importStep d f = Ok d.
Proof.
  unfold intKind. intros H.
  destruct (String.eqb_spec (f_Type f) "int8") as [E|_]; [unfold importStep; rewrite E; reflexivity|].
  destruct (String.eqb_spec (f_Type f) "int16") as [E|_]; [unfold importStep; rewrite E; reflexivity|].
  destruct (String.eqb_spec (f_Type f) "int32") as [E|_]; [unfold importStep; rewrite E; reflexivity|].
  destruct (String.eqb_spec (f_Type f) "int64") as [E|_]; [unfold importStep; rewrite E; reflexivity|].
  discriminate.
Qed.

Lemma foldR_intKind d fields :
  Forall (fun f => intKind (f_Type f) = true) fields -> foldR importStep d fields = Ok d.
Proof.
  induction 1 as [|f fields Hf _ IH]; simpl; [reflexivity|].
  rewrite (importStep_intKind d f Hf). simpl. exact IH.
Qed.

Lemma NoDup_trueKeys (d : gmap string bool) : NoDup (trueKeys d).
Proof. unfold trueKeys. apply NoDup_fst_map_to_list. Qed.

Lemma sortStrings_sorted l : Sorted string_le (sortStrings l).
Proof. unfold sortStrings. apply Sorted_merge_sort. apply _. Qed.

Lemma sortStrings_NoDup l : NoDup l -> NoDup (sortStrings l).
Proof. unfold sortStrings. intros H. rewrite merge_sort_Permutation. exact H. Qed.

(** C8. A message all of whose fields, its own and those of its common
    structs, have one of the types int8, int16, int32, int64 imports
    "encoding/binary" and nothing else; and whenever [collectImports] returns
    a list, the list has no duplicates and is sorted. *)
Theorem collectImports_minimal_sorted (spec : Message) :
  (Forall (fun f => intKind (f_Type f) = true) (importFields spec) ->
   collectImports spec = Ok ["encoding/binary"])
  /\ (forall imports, collectImports spec = Ok imports ->
      NoDup imports /\ Sorted string_le imports).
Proof.
  split.
  - intros H. unfold collectImports. cbv zeta. fold (importFields spec).
    rewrite (foldR_intKind _ _ H). reflexivity.
  - intros imports H. unfold collectImports in H. cbv zeta in H.
    destruct (foldR importStep _ _) as [d| |]; simpl in H; try discriminate.
    inversion H; subst. split; [apply sortStrings_NoDup, NoDup_trueKeys | apply sortStrings_sorted].
Qed.

Lemma collectImports_minimal_sorted_witness :
  Forall (fun f => intKind (f_Type f) = true) (importFields intsOnly)
  /\ collectImports intsOnly = Ok ["encoding/binary"]
  /\ NoDup ["encoding/binary"] /\ Sorted string_le ["encoding/binary"].
Proof.
  assert (H : Forall (fun f => intKind (f_Type f) = true) (importFields intsOnly)).
  { repeat constructor. }
  destruct (collectImports_minimal_sorted intsOnly) as [H1 H2].
  split; [exact H|]. split; [exact (H1 H)|]. exact (H2 _ (H1 H)).
Defined.

(** *** The order in which the map is traversed does not matter *)

Lemma ascii_compare_lt_trans a b c :
  Ascii.compare a b = Lt -> Ascii.compare b c = Lt -> Ascii.compare a c = Lt.
Proof. unfold Ascii.compare. rewrite !N.compare_lt_iff. lia. Qed.

Lemma ascii_compare_refl a : Ascii.compare a a = Eq.
Proof. unfold Ascii.compare. apply N.compare_refl. Qed.

Lemma string_compare_refl s : String.compare s s = Eq.
Proof. induction s as [|a s IH]; simpl; [reflexivity|]. rewrite ascii_compare_refl. exact IH. Qed.

Lemma string_compare_lt_trans s1 : forall s2 s3,
  String.compare s1 s2 = Lt -> String.compare s2 s3 = Lt -> String.compare s1 s3 = Lt.
Proof.
  induction s1 as [|a s1 IH]; intros [|b s2] [|c s3]; simpl; try discriminate; auto.
  destruct (Ascii.compare a b) eqn:Eab; try discriminate;
  destruct (Ascii.compare b c) eqn:Ebc; try discriminate; intros H1 H2.
  - apply Ascii.compare_eq_iff in Eab, Ebc. subst. rewrite ascii_compare_refl. eauto.
  - apply Ascii.compare_eq_iff in Eab. subst. rewrite Ebc. reflexivity.
  - apply Ascii.compare_eq_iff in Ebc. subst. rewrite Eab. reflexivity.
  - rewrite (ascii_compare_lt_trans _ _ _ Eab Ebc). reflexivity.
Qed.

#[global] Instance string_le_trans : Transitive string_le.
Proof.
  intros s1 s2 s3. unfold string_le, String.leb. intros H1 H2.
  destruct (String.compare s1 s2) eqn:E1; [|clear H1|destruct H1];
  destruct (String.compare s2 s3) eqn:E2; try (destruct H2; fail).
  - apply String.compare_eq_iff in E1, E2. subst. rewrite string_compare_refl. exact I.
  - apply String.compare_eq_iff in E1. subst. rewrite E2. exact I.
  - apply String.compare_eq_iff in E2. subst. rewrite E1. exact I.
  - rewrite (string_compare_lt_trans _ _ _ E1 E2). exact I.
Qed.

#[global] Instance string_le_antisym : AntiSymm (=) string_le.
Proof.
  intros s1 s2 H1 H2. unfold string_le in *.
  apply String.leb_antisym; apply Is_true_true; assumption.
Qed.

(** [sort.Strings] gives the same list for every order in which the keys of
    the map were appended. *)
Lemma sortStrings_order l1 l2 : l1 ≡ₚ l2 -> sortStrings l1 = sortStrings l2.
Proof.
  intros H. apply (Sorted_unique string_le); try apply sortStrings_sorted.
  unfold sortStrings. rewrite !merge_sort_Permutation. exact H.
Qed.

(** ** The version guard *)

(** C1. A match of a version pattern has one more string than the pattern has
    groups (three for a range, two for a minimum or an exact version), so the
    length tests of [addVersionIfClause] fail: for the versions "0-3", "2+" and
    "1" it writes nothing and returns false, and the generated decoder reads
    the three fields of [versioned] without any guard. *)
Theorem version_guard_never_written :
  FindStringSubmatch versionRangeRegexp "0-3" = ["0-3"; "0"; "3"]
  /\ FindStringSubmatch versionMinRegexp "2+" = ["2+"; "2"]
  /\ FindStringSubmatch versionRegexp "1" = ["1"; "1"]
  /\ addVersionIfClause "0-3" NewCodeBuffer = Ok (false, NewCodeBuffer)
  /\ addVersionIfClause "2+" NewCodeBuffer = Ok (false, NewCodeBuffer)
  /\ addVersionIfClause "1" NewCodeBuffer = Ok (false, NewCodeBuffer)
  /\ generate "kafka" (messageFoo versioned)
     = Ok ("Foo.go",
           fileFoo [importLine "encoding/binary"]
             ["    X int32"; "    Y int32"; "    Z int32"] []
             ["    res.X = int32(binary.BigEndian.Uint32(data))";
              "    res.Y = int32(binary.BigEndian.Uint32(data))";
              "    res.Z = int32(binary.BigEndian.Uint32(data))"]).
Proof. repeat split; vm_compute; reflexivity. Qed.

(** ** Arrays *)

(** C2. The decoder generated for the array field [int8Array] has one return
    statement, for a failed read of the count.  On the wire byte 0 (the null
    array) the count is decremented to 2^64 - 1 and the decoder does not
    return an error: it reads elements until the data runs out and panics. *)
Theorem array_count_zero_not_rejected :
  generate "kafka" (messageFoo [int8Array])
  = Ok ("Foo.go",
        fileFoo allImports ["    Xs []int8"] []
          (renderAll 1 (arrayCode [SAppend "Xs" EInt8; SAdvance1])))
  /\ readFieldCode "Foo" int8Array = Ok (arrayCode [SAppend "Xs" EInt8; SAdvance1])
  /\ outcomeLocal
       (execAll noConstruct [SReadUvarint ArrLen; SIfErr [SReturnUvarint]; SDecr ArrLen]
          (startState [x00] [])) ArrLen
     = Some 18446744073709551615
  /\ (forall construct sp,
        execAll construct (arrayCode [SAppend "Xs" EInt8; SAdvance1]) (startState [x00] sp)
        = Crash).
Proof.
  split; [vm_compute; reflexivity|]. split; [vm_compute; reflexivity|].
  split; [vm_compute; reflexivity|]. intros construct sp. vm_compute. reflexivity.
Qed.

(** ** The read cursor *)

(** C3. Only the statement for int8 moves the cursor.  The statements for
    int16, int32, int64 and uuid are a single assignment, and the decoder
    generated for two int32 fields reads both from the same four bytes: on
    the bytes of the numbers 1 and 2 both fields are 1 and the data is as it
    was. *)
Theorem fixed_width_read_keeps_cursor :
  generate "kafka" (messageFoo twoInts)
  = Ok ("Foo.go",
        fileFoo [importLine "encoding/binary"] ["    A int32"; "    B int32"] []
          ["    res.A = int32(binary.BigEndian.Uint32(data))";
           "    res.B = int32(binary.BigEndian.Uint32(data))"])
  /\ readFieldCode "Foo" (field "a" "int8" "0+") = Ok [SAssign "A" EInt8; SAdvance1]
  /\ readFieldCode "Foo" (field "a" "int16" "0+") = Ok [SAssign "A" EInt16]
  /\ readFieldCode "Foo" (field "a" "int32" "0+") = Ok [SAssign "A" EInt32]
  /\ readFieldCode "Foo" (field "a" "int64" "0+") = Ok [SAssign "A" EInt64]
  /\ readFieldCode "Foo" (field "a" "uuid" "0+") = Ok [SAssign "A" EUint16]
  /\ (forall construct sp,
        let o := execAll construct [SAssign "A" EInt32; SAssign "B" EInt32]
                   (startState [x00; x00; x00; x01; x00; x00; x00; x02] sp) in
        outcomeField o "A" = Some (VInt 1) /\ outcomeField o "B" = Some (VInt 1)
        /\ outcomeData o = Some [x00; x00; x00; x01; x00; x00; x00; x02]).
Proof.
  split; [vm_compute; reflexivity|]. do 5 (split; [vm_compute; reflexivity|]).
  intros construct sp. vm_compute. repeat split.
Qed.

(** ** Strings *)

(** C4. [stringLen] is a uint16, so the test [stringLen < 0] of the generated
    decoder never holds: the prefixes 0xffff (-1 as a signed number) and
    0x8000 end in the invalid-length error, not in the null error.  With the
    prefix 2 the string is made of the first two bytes of the data, the
    prefix itself, and the cursor moves by two bytes. *)
Theorem string_null_prefix_is_invalid_length :
  generate "kafka" (messageFoo [stringField])
  = Ok ("Foo.go",
        fileFoo [importLine "encoding/binary"; importLine "fmt"] ["    S string"] []
          (renderAll 1 [readStringCode "s" "S" false]))
  /\ readFieldCode "Foo" stringField = Ok [readStringCode "s" "S" false]
  /\ (forall construct sp,
        execAll construct [readStringCode "s" "S" false] (startState [xff; xff] sp)
        = Return (InvalidLength 65535))
  /\ (forall construct sp,
        execAll construct [readStringCode "s" "S" false] (startState [x80; x00] sp)
        = Return (InvalidLength 32768))
  /\ (forall construct,
        let o := execAll construct [readStringCode "s" "S" false]
                   (startState [x00; x02; x61; x62; x63] []) in
        outcomeField o "S" = Some (VString [x00; x02])
        /\ outcomeData o = Some [x61; x62; x63]).
Proof.
  split; [vm_compute; reflexivity|]. split; [vm_compute; reflexivity|].
  split; [intros; vm_compute; reflexivity|]. split; [intros; vm_compute; reflexivity|].
  intros construct. vm_compute. split; reflexivity.
Qed.

(** ** uuid *)

(** C5. A uuid field is declared as uint16 and read with
    [binary.BigEndian.Uint16]: of sixteen bytes the decoder takes the first
    two, and it leaves the cursor where it was. *)
Theorem uuid_is_two_bytes :
  generate "kafka" (messageFoo [uuidField])
  = Ok ("Foo.go",
        fileFoo [importLine "encoding/binary"] ["    Id uint16"] []
          ["    res.Id = binary.BigEndian.Uint16(data)"])
  /\ readFieldCode "Foo" uuidField = Ok [SAssign "Id" EUint16]
  /\ readFieldCode "Foo" (field "ids" "[]uuid" "0+") = Ok (arrayCode [SAppend "Ids" EUint16])
  /\ (forall construct sp,
        let o := execAll construct [SAssign "Id" EUint16]
                   (startState [x01; x02; x03; x04; x05; x06; x07; x08;
                                x09; x0a; x0b; x0c; x0d; x0e; x0f; x10] sp) in
        outcomeField o "Id" = Some (VInt 258)
        /\ outcomeData o = Some [x01; x02; x03; x04; x05; x06; x07; x08;
                                 x09; x0a; x0b; x0c; x0d; x0e; x0f; x10]).
Proof.
  split; [vm_compute; reflexivity|]. split; [vm_compute; reflexivity|].
  split; [vm_compute; reflexivity|]. intros construct sp. vm_compute. split; reflexivity.
Qed.

(** ** Default values *)

(** C7. A field with a version and a default value is generated without a
    guard and without the branch that assigns the default, whatever the
    default is: a string field with a number as default, an int32 field with
    a string as default, are accepted like any other. *)
Theorem default_value_never_checked (d : any) :
  generate "kafka" (messageFoo [defaultedString d])
  = Ok ("Foo.go",
        fileFoo [importLine "encoding/binary"; importLine "fmt"] ["    Y string"] []
          (renderAll 1 [readStringCode "y" "Y" false]))
  /\ generate "kafka" (messageFoo [defaultedInt d])
     = Ok ("Foo.go",
           fileFoo [importLine "encoding/binary"] ["    N int32"] []
             ["    res.N = int32(binary.BigEndian.Uint32(data))"]).
Proof. split; vm_compute; reflexivity. Qed.

(** ** Inline structs *)

(** C9. The type of an inline struct is defined under the message name
    followed by the field type as it is written (Footopic), while its
    constructor, the result type of the constructor and the call in the
    decoder capitalize the field type (NewFooTopic, FooTopic). *)
Theorem inline_struct_type_not_capitalized :
  generate "kafka" (messageFoo [inlineTopic])
  = Ok ("Foo.go",
        fileFoo allImports ["    T []Footopic"]
          ["type Footopic struct {";
           "    A int8";
           "}";
           "func NewFooTopic(data []byte) (FooTopic, error) {";
           "    var res FooTopic";
           "    res.A = int8(data[0])";
           "    data = data[1:]";
           "    return res, nil";
           "}"]
          (renderAll 1 (arrayCode [SBlock [SCall "NewFooTopic";
                                           SIfErr [SReturnBuilding [ArgStr "Foo"; ArgStr "Topic"]];
                                           SAppend "T" EV]]))).
Proof. vm_compute. reflexivity. Qed.

(** ** Types that are not primitive *)

Lemma isPrimitive_false ft :
  isPrimitive ft = false ->
  String.eqb ft "int8" = false /\ String.eqb ft "int16" = false
  /\ String.eqb ft "int32" = false /\ String.eqb ft "int64" = false
  /\ String.eqb ft "string" = false /\ String.eqb ft "uuid" = false
  /\ String.eqb ft "bytes" = false.
Proof.
  unfold isPrimitive. intros H.
  repeat (apply orb_false_elim in H; destruct H as [H ?]). repeat split; assumption.
Qed.

Lemma readFieldCode_struct name field isArray ft F C :
  deconstructFieldType (f_Type field) = Ok (isArray, ft) ->
  isPrimitive ft = false ->
  capitalize (f_Name field) = Ok F -> capitalize ft = Ok C ->
  readFieldCode name field
  = Ok (if isArray
        then arrayCode [SBlock (allocateCode (hasFields field) name C ++ [SAppend F EV])%list]
        else [SBlock (allocateCode (hasFields field) name C ++ [SAssign F EV])%list]).
Proof.
  intros Hd Hp HF HC. unfold readFieldCode. rewrite Hd. simpl. rewrite HF. simpl.
  rewrite Hp, HC. simpl. unfold elementCode, scalarCode.
  destruct (isPrimitive_false ft Hp) as (E1 & E2 & E3 & E4 & E5 & E6 & E7).
  rewrite E1, E2, E3, E4, E5, E6, E7. reflexivity.
Qed.

(** C6, the claim as stated fails: the message with the field [unknownType],
    whose type "nosuch" is neither primitive nor declared, is generated, with
    a call of a constructor NewNosuch. *)
Lemma unknown_type_is_generated :
  generate "kafka" (messageFoo [unknownType])
  = Ok ("Foo.go",
        fileFoo [importLine "encoding/binary"; importLine "fmt"] ["    X nosuch"] []
          (renderAll 1 [SBlock [SCall "NewNosuch";
                                SIfErr [SReturnBuilding [ArgStr "Nosuch"]];
                                SAssign "X" EV]])).
Proof. vm_compute. reflexivity. Qed.

(** C6, amended.  For a field whose type, without the array marker, is not
    a primitive kind, [addReadField] writes a block that calls the
    constructor named New and the capitalized type (New, the message name and
    the capitalized type when the field has fields of its own) and assigns or
    appends its result; whether a struct of that name is declared is not
    looked at. *)
Theorem unknown_type_calls_constructor :
  forall name field isArray ft F C cb a,
    deconstructFieldType (f_Type field) = Ok (isArray, ft) ->
    isPrimitive ft = false ->
    capitalize (f_Name field) = Ok F -> capitalize ft = Ok C ->
    (a < 700)%nat -> atLevel cb a ->
    addReadField name field cb
    = Ok (tt, emit cb
                (renderAll a
                   (if isArray
                    then arrayCode
                           [SBlock (allocateCode (hasFields field) name C
                                      ++ [SAppend F EV])%list]
                    else [SBlock (allocateCode (hasFields field) name C
                                    ++ [SAssign F EV])%list])) a).
Proof.
  intros name field isArray ft F C cb a Hd Hp HF HC Ha Hcb.
  apply addReadField_lines; [|exact Ha|exact Hcb].
  exact (readFieldCode_struct name field isArray ft F C Hd Hp HF HC).
Qed.

Lemma unknown_type_calls_constructor_witness :
  addReadField "Foo" unknownType (emit NewCodeBuffer [] 1)
  = Ok (tt, emit (emit NewCodeBuffer [] 1)
              (renderAll 1 [SBlock [SCall "NewNosuch";
                                    SIfErr [SReturnBuilding [ArgStr "Nosuch"]];
                                    SAssign "X" EV]]) 1).
Proof.
  apply (unknown_type_calls_constructor "Foo" unknownType false "nosuch" "X" "Nosuch"
           (emit NewCodeBuffer [] 1) 1%nat).
  - reflexivity.
  - reflexivity.
  - reflexivity.
  - reflexivity.
  - lia.
  - split; reflexivity.
Defined.

(** ** Empty names and types *)

(** C10, the claim as stated fails: the field without name and type of
    [emptyBelowCommon] lies below a field of a common struct, where
    [generateFile] does not look, and the file is generated. *)
Lemma empty_field_below_common_struct_is_not_visited :
  (exists cs g f, In cs (m_CommonStructs emptyBelowCommon) /\ In g (cs_Fields cs)
                  /\ In f (f_Fields g)
                  /\ f_Name f = EmptyString /\ f_Type f = EmptyString)
  /\ generate "kafka" emptyBelowCommon
     = Ok ("Foo.go",
           fileFoo [importLine "encoding/binary"] []
             ["type Common struct {";
              "    G Fooint8";
              "}";
              "func NewCommon(data []byte) (Common, error) {";
              "    var res Common";
              "    res.G = int8(data[0])";
              "    data = data[1:]";
              "    return res, nil";
              "}"] []).
Proof.
  split.
  - exists (mkCommonStruct "Common" "0+"
              [mkMessageField "g" "int8" "0+" EmptyString None None
                 [field EmptyString EmptyString EmptyString]]),
      (mkMessageField "g" "int8" "0+" EmptyString None None
         [field EmptyString EmptyString EmptyString]),
      (field EmptyString EmptyString EmptyString).
    repeat split; left; reflexivity.
  - vm_compute. reflexivity.
Qed.

(** C10, amended.  When a field of the message, a field below one at any
    depth, or a field of a common struct has an empty name or an empty type,
    [generateFile] panics; it does not return an error. *)
Theorem generate_panics_on_empty_name_or_type packageName spec f :
  visited f (m_Fields spec)
  \/ (exists cs, In cs (m_CommonStructs spec) /\ In f (cs_Fields cs)) ->
  f_Name f = EmptyString \/ f_Type f = EmptyString ->
  exists p, generate packageName spec = Panic p.
Proof.
  intros Hwhere Hempty. unfold generate.
  destruct Hwhere as [Hv | [cs [Hcs Hin]]].
  - destruct (visited_inline f _ Hv) as [Hin | [parent [Hp Hin]]].
    + destruct Hempty as [Hn | Ht].
      * exact (panics_generateFile_name packageName spec f Hin Hn NewCodeBuffer).
      * refine (panics_generateFile_type packageName spec f _ Ht NewCodeBuffer).
        apply in_or_app. left. exact Hin.
    + exact (panics_generateFile_inline packageName spec parent f Hp Hin Hempty NewCodeBuffer).
  - destruct Hempty as [Hn | Ht].
    + exact (panics_generateFile_common packageName spec cs f Hcs Hin Hn NewCodeBuffer).
    + refine (panics_generateFile_type packageName spec f _ Ht NewCodeBuffer).
      apply in_or_app. right. apply in_flat_map. exists cs. split; assumption.
Qed.

Lemma generate_panics_on_empty_name_or_type_witness :
  exists p, generate "kafka" emptyName = Panic p.
Proof.
  apply (generate_panics_on_empty_name_or_type "kafka" emptyName (field EmptyString "int8" "0+")).
  - left. apply visited_here. right. left. reflexivity.
  - left. reflexivity.
Defined.

(** * Further properties of the generator *)

(** ** [addVersionIfClause] *)

(** X1. For every versions string [addVersionIfClause] returns false and
    leaves the code buffer as it was: no version guard is written for any
    field, common struct or inline struct. *)
Theorem addVersionIfClause_never_guards (versions : string) (cb : codeBuffer) :
  addVersionIfClause versions cb = Ok (false, cb).
Proof. apply addVersionIfClause_false. Qed.

(** ** [collectImports] *)

Lemma importState_fmt d : importState d -> importState (<["fmt" := true]> d).
Proof.
  intros [H | [H | H]]; subst d; [right; left | right; left | right; right];
    vm_compute; reflexivity.
Qed.

Lemma importState_bytes_fmt d :
  importState d -> importState (<["fmt" := true]> (<["bytes" := true]> d)).
Proof.
  intros [H | [H | H]]; subst d; right; right; vm_compute; reflexivity.
Qed.

Lemma importStep_state d f d' :
  importState d -> importStep d f = Ok d' -> importState d'.
Proof.
  intros Hd. unfold importStep.
  destruct (deconstructFieldType (f_Type f)) as [[isArray ft] | e | p]; cbn; try discriminate.
  intros H. injection H as <-.
  assert (Hd' : importState (if isArray then <["fmt" := true]> (<["bytes" := true]> d) else d)).
  { destruct isArray; [apply importState_bytes_fmt|]; assumption. }
  repeat (case_match; try (apply importState_bytes_fmt; assumption);
          try (apply importState_fmt; assumption); try assumption).
Qed.

Lemma foldR_state fields : forall d d',
  importState d -> foldR importStep d fields = Ok d' -> importState d'.
Proof.
  induction fields as [| f fields IH]; intros d d' Hd; cbn.
  - intros H; injection H as <-; assumption.
  - destruct (importStep d f) as [d1 | e | p] eqn:E; cbn; try discriminate.
    apply IH. eapply importStep_state; eassumption.
Qed.

(** X2. Whatever the message, [collectImports] returns one of three import
    lists: encoding/binary alone, encoding/binary with fmt, or bytes,
    encoding/binary and fmt.  encoding/binary is always imported and bytes
    never without fmt. *)
Theorem collectImports_three_lists (spec : Message) (l : list string) :
  collectImports spec = Ok l ->
  l = ["encoding/binary"] \/ l = ["encoding/binary"; "fmt"]
  \/ l = ["bytes"; "encoding/binary"; "fmt"].
Proof.
  unfold collectImports.
  destruct (foldR importStep _ _) as [d | e | p] eqn:E; cbn; try discriminate.
  intros H; injection H as <-.
  apply foldR_state in E; [| left; reflexivity].
  destruct E as [H | [H | H]]; subst d;
    [left | right; left | right; right]; vm_compute; reflexivity.
Qed.

Lemma collectImports_three_lists_witness :
  ["bytes"; "encoding/binary"; "fmt"] = ["encoding/binary"]
  \/ ["bytes"; "encoding/binary"; "fmt"] = ["encoding/binary"; "fmt"]
  \/ ["bytes"; "encoding/binary"; "fmt"] = ["bytes"; "encoding/binary"; "fmt"].
Proof.
  apply (collectImports_three_lists (messageFoo [int8Array])).
  vm_compute. reflexivity.
Defined.

(** ** The greedy loop over a character class *)

Lemma plusLoop_class P m k :
  matchesClass P m ->
  (forall p a s c, P a = true -> k p (String a s) c = None) ->
  forall fuel pos rest cs, (String.length rest < fuel)%nat ->
  plusLoop m k fuel pos rest cs =
  match rest with
  | String a _ =>
      if P a then k (pos + runLength P rest)%nat (skipClass P rest) cs else None
  | EmptyString => None
  end.
Proof.
  intros [Hm Hm0] Hk. induction fuel as [| fuel IH]; intros pos rest cs Hf; [lia|].
  cbn [plusLoop]. destruct rest as [| a r]; [apply Hm0|].
  rewrite Hm. destruct (P a) eqn:Pa; [| reflexivity].
  assert (Hlt : (pos <? S pos)%nat = true) by (apply Nat.ltb_lt; lia).
  rewrite Hlt. cbn in Hf. rewrite IH by lia.
  cbn [runLength skipClass]. rewrite Pa.
  destruct r as [| b r'].
  - cbn. replace (pos + 1)%nat with (S pos) by lia. reflexivity.
  - destruct (P b) eqn:Pb.
    + cbn [runLength skipClass]. rewrite Pb.
      replace (S pos + S (runLength P r'))%nat with (pos + S (S (runLength P r')))%nat by lia.
      destruct (k _ _ _) eqn:E; [reflexivity|].
      apply Hk; assumption.
    + cbn [runLength skipClass]. rewrite Pb.
      replace (pos + 1)%nat with (S pos) by lia. reflexivity.
Qed.

Lemma matchesClass_RAny : matchesClass notNewline (rmatch RAny).
Proof.
  split; [| reflexivity]. intros pos a r cs k. cbn. unfold notNewline.
  destruct (Ascii.eqb a newline); reflexivity.
Qed.

Lemma skipClass_notNewline s :
  contains newline s = false ->
  skipClass notNewline s = EmptyString /\ runLength notNewline s = String.length s.
Proof.
  induction s as [| a s IH]; cbn; [split; reflexivity|].
  intros H. apply orb_false_iff in H as [Ha Hs]. unfold notNewline at 1 3.
  rewrite Ha. cbn. destruct (IH Hs) as [-> ->]. split; reflexivity.
Qed.

Lemma skipClass_newline s :
  contains newline s = true ->
  exists a r, skipClass notNewline s = String a r.
Proof.
  induction s as [| a s IH]; cbn; [discriminate|].
  unfold notNewline at 1. destruct (Ascii.eqb a newline) eqn:Ha; cbn.
  - intros _. eauto.
  - exact IH.
Qed.

(** [(.+)$] with the whole match starting at [pos0]. *)
Lemma rmatch_rest pos0 pos rest cs :
  rmatch (RSeq (RGroup 2 (RPlus RAny)) REol) pos rest cs
    (fun p _ c => Some (<[O := Some (pos0, p)]> c)) =
  match rest with
  | EmptyString => None
  | String _ _ =>
      if contains newline rest then None
      else Some (<[O := Some (pos0, (pos + String.length rest)%nat)]>
                   (<[2%nat := Some (pos, (pos + String.length rest)%nat)]> cs))
  end.
Proof.
  cbn [rmatch].
  rewrite (plusLoop_class notNewline _ _ matchesClass_RAny); [| reflexivity | lia].
  destruct rest as [| a r]; [reflexivity|].
  cbn [contains]. unfold notNewline at 1.
  destruct (Ascii.eqb a newline) eqn:Ha; [reflexivity|]. cbn [negb orb].
  destruct (contains newline r) eqn:Hr.
  - destruct (skipClass_newline (String a r)) as (b & s & ->); [cbn; rewrite Ha, Hr; reflexivity|].
    reflexivity.
  - destruct (skipClass_notNewline (String a r)) as [-> ->]; [cbn; rewrite Ha, Hr; reflexivity|].
    reflexivity.
Qed.

Lemma substring_all s : substring 0 (String.length s) s = s.
Proof. induction s as [| a s IH]; cbn; [reflexivity | rewrite IH; reflexivity]. Qed.

Lemma findFrom_arrayRegex_later rest : forall pos,
  findFrom arrayRegex (S pos) rest = None.
Proof.
  induction rest as [| a rest IH]; intros pos; cbn [findFrom]; cbn; [reflexivity|].
  apply IH.
Qed.

(** The first attempt of [arrayRegex], at the start of the text. *)
Lemma rmatch_arrayRegex t :
  rmatch arrayRegex 0 t (replicate 3 None) (fun p _ c => Some (<[O := Some (O, p)]> c)) =
  match t with
  | EmptyString => None
  | String _ _ =>
      if contains newline t then None
      else match t with
           | String "[" (String "]" (String a r)) =>
               Some [Some (O, String.length t); Some (O, 2%nat);
                     Some (2%nat, String.length t)]
           | _ => Some [Some (O, String.length t); None; Some (O, String.length t)]
           end
  end.
Proof.
  set (K := fun (p : nat) (_ : string) (c : captures) => Some (<[O := Some (O, p)]> c)).
  change (rmatch arrayRegex 0 t (replicate 3 None) K) with
    (match rmatch (RGroup 1 (RSeq (RChar "[") (RChar "]"))) 0 t (replicate 3 None)
             (fun p s c => rmatch (RSeq (RGroup 2 (RPlus RAny)) REol) p s c K) with
     | Some c => Some c
     | None => rmatch (RSeq (RGroup 2 (RPlus RAny)) REol) 0 t (replicate 3 None) K
     end).
  assert (Hfall : rmatch (RSeq (RGroup 2 (RPlus RAny)) REol) 0 t (replicate 3 None) K =
                  match t with
                  | EmptyString => None
                  | String _ _ =>
                      if contains newline t then None
                      else Some [Some (O, String.length t); None; Some (O, String.length t)]
                  end).
  { unfold K. rewrite rmatch_rest. destruct t; [reflexivity|].
    destruct (contains newline _); reflexivity. }
  rewrite Hfall; clear Hfall.
  destruct t as [| a t]; [reflexivity|].
  destruct (Ascii.eqb a "[") eqn:Ha.
  2:{ cbn [rmatch]. rewrite Ha.
      destruct (contains newline (String a t)); [reflexivity|].
      destruct a as [[] [] [] [] [] [] [] []]; try discriminate Ha; reflexivity. }
  apply Ascii.eqb_eq in Ha; subst a.
  destruct t as [| b t]; [reflexivity|].
  destruct (Ascii.eqb b "]") eqn:Hb.
  2:{ cbn [rmatch]. cbn [Ascii.eqb Bool.eqb]. rewrite Hb.
      destruct (contains newline _); [reflexivity|].
      destruct b as [[] [] [] [] [] [] [] []]; try discriminate Hb; reflexivity. }
  apply Ascii.eqb_eq in Hb; subst b.
  change (rmatch (RGroup 1 (RSeq (RChar "[") (RChar "]"))) 0 (String "[" (String "]" t))
            (replicate 3 None)
            (fun p s c => rmatch (RSeq (RGroup 2 (RPlus RAny)) REol) p s c K))
    with (rmatch (RSeq (RGroup 2 (RPlus RAny)) REol) 2 t
            (<[1%nat := Some (O, 2%nat)]> (replicate 3 None)) K).
  unfold K at 1. rewrite rmatch_rest.
  destruct t as [| c t]; [reflexivity|].
  change (contains newline (String "[" (String "]" (String c t))))
    with (contains newline (String c t)).
  destruct (contains newline (String c t)); reflexivity.
Qed.

Lemma findFrom_arrayRegex t :
  findFrom arrayRegex 0 t =
  rmatch arrayRegex 0 t (replicate 3 None) (fun p _ c => Some (<[O := Some (O, p)]> c)).
Proof.
  destruct t as [| a t]; [reflexivity|].
  cbn [findFrom].
  change (replicate (S (ngroups arrayRegex)) None) with (replicate 3 (@None (nat * nat))).
  destruct (rmatch arrayRegex 0 (String a t) _ _); [reflexivity|].
  apply findFrom_arrayRegex_later.
Qed.

Lemma deconstructFieldType_cases (t : string) :
  deconstructFieldType t =
  if String.eqb t EmptyString || contains newline t then Panic (PIndexOutOfRange 1 0)
  else match t with
       | String "[" (String "]" (String a r)) => Ok (true, String a r)
       | _ => Ok (false, t)
       end.
Proof.
  unfold deconstructFieldType, FindStringSubmatch.
  rewrite findFrom_arrayRegex, rmatch_arrayRegex.
  destruct t as [| a t]; [reflexivity|].
  change (String.eqb (String a t) EmptyString) with false. cbn [orb].
  destruct (contains newline (String a t)); [reflexivity|].
  assert (Hplain : rbind (index (map (fun c : option (nat * nat) =>
                      match c with
                      | Some (i, j) => substring i (j - i) (String a t)
                      | None => EmptyString
                      end)
                    [Some (O, String.length (String a t)); None;
                     Some (O, String.length (String a t))]) 1)
            (fun m1 => rbind (index (map (fun c : option (nat * nat) =>
                      match c with
                      | Some (i, j) => substring i (j - i) (String a t)
                      | None => EmptyString
                      end)
                    [Some (O, String.length (String a t)); None;
                     Some (O, String.length (String a t))]) 2)
              (fun m2 => Ok (String.eqb m1 "[]", m2))) = Ok (false, String a t)).
  { cbn [map index lookup list_lookup rbind]. rewrite Nat.sub_0_r, substring_all. reflexivity. }
  destruct (Ascii.eqb a "[") eqn:Ha.
  2:{ destruct a as [[] [] [] [] [] [] [] []]; try discriminate Ha; exact Hplain. }
  apply Ascii.eqb_eq in Ha; subst a.
  destruct t as [| b t]; [exact Hplain|].
  destruct (Ascii.eqb b "]") eqn:Hb.
  2:{ destruct b as [[] [] [] [] [] [] [] []]; try discriminate Hb; exact Hplain. }
  apply Ascii.eqb_eq in Hb; subst b.
  destruct t as [| c t]; [exact Hplain|]. clear Hplain.
  cbn [map index lookup list_lookup rbind].
  change (substring 0 (2 - 0) (String "[" (String "]" (String c t)))) with "[]".
  change (substring 2 (String.length (String "[" (String "]" (String c t))) - 2)
            (String "[" (String "]" (String c t))))
    with (substring 0 (String.length (String c t)) (String c t)).
  rewrite substring_all. reflexivity.
Qed.

(** X3. [deconstructFieldType] panics (index out of range on the nil match)
    exactly on the empty type and on a type that contains a newline.
    Everywhere else it returns: a type that starts with [[]] followed by at
    least one character is an array of the rest, every other type, the bare
    [[]] among them, is itself and no array. *)
Theorem deconstructFieldType_spec (t : string) :
  deconstructFieldType t =
  if String.eqb t EmptyString || contains newline t then Panic (PIndexOutOfRange 1 0)
  else match t with
       | String "[" (String "]" (String a r)) => Ok (true, String a r)
       | _ => Ok (false, t)
       end.
Proof. apply deconstructFieldType_cases. Qed.

(** ** [collectInlineStructs] *)

(** Induction over a field and the fields below it. *)
Lemma MessageField_tree_ind (P : MessageField -> Prop) :
  (forall f, Forall P (f_Fields f) -> P f) -> forall f, P f.
Proof.
  intros H. fix IH 1. intros [n t v a d i fs]. apply H. cbn.
  induction fs as [| x fs IHfs]; constructor; [apply IH | exact IHfs].
Qed.

Lemma collectInlineStruct_sound p : forall x,
  In p (collectInlineStruct x) ->
  (p = x \/ visited p (f_Fields x)) /\ f_Fields p <> [].
Proof.
  intros x. induction x as [x IH] using MessageField_tree_ind.
  destruct x as [n t v a d i fs]. cbn in *.
  destruct fs as [| y fs]; [intros []|].
  intros [<- | Hin]; [split; [left; reflexivity | discriminate]|].
  change (In p (flat_map collectInlineStruct (y :: fs))) in Hin.
  apply in_flat_map in Hin as (z & Hz & Hp).
  rewrite List.Forall_forall in IH. destruct (IH z Hz Hp) as [[-> | Hv] Hne].
  - split; [right; apply visited_here; exact Hz | exact Hne].
  - split; [right; eapply visited_below; eassumption | exact Hne].
Qed.

Lemma collectInlineStructs_parent fields p :
  In p (collectInlineStructs fields) -> visited p fields /\ f_Fields p <> [].
Proof.
  intros Hin. apply in_flat_map in Hin as (x & Hx & Hp).
  destruct (collectInlineStruct_sound p x Hp) as [[-> | Hv] Hne].
  - split; [apply visited_here; exact Hx | exact Hne].
  - split; [eapply visited_below; eassumption | exact Hne].
Qed.

Lemma visited_child f p fields :
  visited p fields -> In f (f_Fields p) -> visited f fields.
Proof.
  induction 1 as [fields Hin | parent fields Hp Hv IH]; intros Hf.
  - eapply visited_below; [exact Hin | apply visited_here, Hf].
  - eapply visited_below; [exact Hp | apply IH, Hf].
Qed.

(** X4. [collectInlineStructs] returns exactly the fields that have fields of
    their own among the given fields and the fields below them, at any
    depth. *)
Theorem collectInlineStructs_visited (fields : list MessageField) (p : MessageField) :
  In p (collectInlineStructs fields) <-> visited p fields /\ f_Fields p <> [].
Proof.
  split.
  - apply collectInlineStructs_parent.
  - intros [Hv Hne]. induction Hv as [fields Hin | parent fields Hp Hv IH].
    + apply in_flat_map. exists p. split; [exact Hin | apply collectInlineStruct_self, Hne].
    + apply in_flat_map. exists parent. split; [exact Hp|].
      apply collectInlineStruct_below, IH.
Qed.

(** ** Messages that are generated *)

Lemma deconstructFieldType_good t :
  goodType t ->
  exists isArray ft, deconstructFieldType t = Ok (isArray, ft) /\ ft <> EmptyString.
Proof.
  intros [Hne Hnl]. rewrite deconstructFieldType_cases, Hnl.
  destruct t as [| a t]; [congruence|]. cbn [String.eqb orb].
  destruct a as [[] [] [] [] [] [] [] []];
    try (exists false; eexists; split; [reflexivity | discriminate]).
  destruct t as [| b t]; [exists false; eexists; split; [reflexivity | discriminate]|].
  destruct b as [[] [] [] [] [] [] [] []];
    try (exists false; eexists; split; [reflexivity | discriminate]).
  destruct t as [| c t]; [exists false; eexists; split; [reflexivity | discriminate]|].
  exists true; eexists; split; [reflexivity | discriminate].
Qed.

Lemma deconstructFieldType_bad t :
  ~ goodType t -> deconstructFieldType t = Panic (PIndexOutOfRange 1 0).
Proof.
  intros H. rewrite deconstructFieldType_cases.
  destruct t as [| a t]; [reflexivity|]. cbn [String.eqb orb].
  destruct (contains newline (String a t)) eqn:E; [reflexivity|].
  exfalso. apply H. split; [discriminate | exact E].
Qed.

Lemma capitalize_good s : s <> EmptyString -> exists c, capitalize s = Ok c.
Proof. destruct s; [congruence|]. intros _. eexists. reflexivity. Qed.

Lemma readFieldCode_good name f :
  goodField f -> exists code, readFieldCode name f = Ok code.
Proof.
  intros [Hn Ht]. unfold readFieldCode.
  destruct (deconstructFieldType_good _ Ht) as (isArray & ft & -> & Hft).
  destruct (capitalize_good _ Hn) as [F ->]. destruct (capitalize_good _ Hft) as [C HC].
  cbn [rbind]. destruct (isPrimitive ft); [| rewrite HC]; cbn [rbind]; eexists; reflexivity.
Qed.

Lemma runs_forEach {A} (f : A -> M unit) a l :
  (forall x, In x l -> exists ls, runs (f x) a a ls tt) ->
  exists ls, runs (forEach l f) a a ls tt.
Proof.
  induction l as [| x l IH]; intros H.
  - exists []. apply runs_ret.
  - destruct (H x (or_introl eq_refl)) as [l1 H1].
    destruct IH as [l2 H2]; [intros y Hy; apply H; right; exact Hy|].
    exists (l1 ++ l2)%list. cbn [forEach]. eapply runs_bind; [exact H1 | exact H2].
Qed.

Lemma runs_wrapErr {A} context (m : M A) a b ls x :
  runs m a b ls x -> runs (wrapErr context m) a b ls x.
Proof. intros H cb Hcb. unfold wrapErr. rewrite (H cb Hcb). reflexivity. Qed.

Lemma goodType_mapped t :
  goodType t ->
  goodType (if String.eqb t "uuid" then "uint16"
            else if String.eqb t "bytes" then "[]byte" else t).
Proof.
  intros H. destruct (String.eqb t "uuid"); [split; [discriminate | reflexivity]|].
  destruct (String.eqb t "bytes"); [split; [discriminate | reflexivity]|]. exact H.
Qed.

Lemma runs_addStructField name f a :
  goodField f -> exists ls, runs (addStructField name f) a a ls tt.
Proof.
  intros [Hn Ht]. unfold addStructField. cbv zeta.
  destruct (capitalize_good _ Hn) as [F HF].
  destruct (deconstructFieldType_good _ (goodType_mapped _ Ht)) as (isArray & ft & Hd & Hft).
  destruct (hasFields f); [destruct isArray|]; eexists; runs_steps.
Qed.

Lemma runs_addStructFields name fields a :
  (forall f, In f fields -> goodField f) ->
  exists ls, runs (addStructFields name fields) a a ls tt.
Proof.
  intros H. apply runs_forEach. intros f Hf. apply runs_addStructField, H, Hf.
Qed.

Lemma runs_addReadFields name fields a :
  (a < 700)%nat -> (forall f, In f fields -> goodField f) ->
  exists ls, runs (forEach fields (addReadField name)) a a ls tt.
Proof.
  intros Ha H. apply runs_forEach. intros f Hf.
  destruct (readFieldCode_good name f (H f Hf)) as [code Hc].
  eexists. apply runs_addReadField; eassumption.
Qed.

Ltac runs_call ::=
  lazymatch goal with
  | |- runs (addStructFields _ _) _ _ _ _ => eassumption
  | |- runs (forEach _ _) _ _ _ _ => eassumption
  end.

Lemma runs_addCommonStruct name cs a :
  (a < 600)%nat -> cs_Name cs <> EmptyString ->
  (forall f, In f (cs_Fields cs) -> goodField f) ->
  exists ls, runs (addCommonStruct name cs) a a ls tt.
Proof.
  intros Ha Hn Hf. destruct (capitalize_good _ Hn) as [C HC].
  destruct (runs_addStructFields name (cs_Fields cs) (S a) Hf) as [l1 H1].
  destruct (runs_addReadFields name (cs_Fields cs) (S a)) as [l2 H2]; [lia | exact Hf|].
  unfold addCommonStruct. eexists. runs_steps.
Qed.

Lemma runs_addInlineStruct name p a :
  (a < 600)%nat -> goodType (f_Type p) ->
  (forall f, In f (f_Fields p) -> goodField f) ->
  exists ls, runs (addInlineStruct name p) a a ls tt.
Proof.
  intros Ha Ht Hf.
  destruct (deconstructFieldType_good _ Ht) as (isArray & ft & Hd & Hft).
  destruct (capitalize_good _ Hft) as [C HC].
  destruct (runs_addStructFields name (f_Fields p) (S a) Hf) as [l1 H1].
  destruct (runs_addReadFields name (f_Fields p) (S a)) as [l2 H2]; [lia | exact Hf|].
  unfold addInlineStruct. eexists. runs_steps.
Qed.

Lemma collectImports_good spec :
  (forall f, In f (importFields spec) -> goodType (f_Type f)) ->
  exists imports, collectImports spec = Ok imports.
Proof.
  intros H. unfold collectImports. cbv zeta.
  change (m_Fields spec ++ flat_map cs_Fields (m_CommonStructs spec))%list
    with (importFields spec).
  generalize (<["bytes" := false]> (<["encoding/binary" := true]> (<["fmt" := false]> ∅))
                : gmap string bool).
  induction (importFields spec) as [| f fields IH]; intros d.
  - eexists. reflexivity.
  - cbn [foldR]. unfold importStep at 1.
    destruct (deconstructFieldType_good (f_Type f)) as (isArray & ft & -> & _);
      [apply H; left; reflexivity|].
    cbn [rbind].
    match goal with |- context [foldR importStep ?d' fields] =>
      destruct (IH (fun g Hg => H g (or_intror Hg)) d') as [imports Hi] end.
    exists imports. exact Hi.
Qed.

Lemma goodSpec_importFields spec f :
  goodSpec spec -> In f (importFields spec) -> goodField f.
Proof.
  intros [Hf Hcs] Hin. unfold importFields in Hin. apply in_app_or in Hin as [Hin | Hin].
  - apply Hf, visited_here, Hin.
  - apply in_flat_map in Hin as (cs & Hc & Hin). exact (proj2 (Hcs cs Hc) f Hin).
Qed.

Lemma runs_generateFile packageName spec :
  goodSpec spec ->
  exists ls, runs (generateFile packageName spec) 0 0 ls (m_Name spec +:+ ".go").
Proof.
  intros Hgood.
  destruct (collectImports_good spec) as [imports Hi].
  { intros f Hf. exact (proj2 (goodSpec_importFields spec f Hgood Hf)). }
  destruct Hgood as [Hf Hcs].
  destruct (runs_forEach (fun dep => AddLine (dq +:+ "%s" +:+ dq) [ArgStr dep]) 1 imports)
    as [l0 H0].
  { intros dep _. eexists. apply runs_AddLine. }
  destruct (runs_addStructFields (m_Name spec) (m_Fields spec) 1) as [l1 H1].
  { intros f Hin. apply Hf, visited_here, Hin. }
  destruct (runs_forEach (fun cs => wrapErr "problem adding common struct"
                                      (addCommonStruct (m_Name spec) cs)) 0
              (m_CommonStructs spec)) as [l2 H2].
  { intros cs Hc. destruct (Hcs cs Hc) as [Hn Hfs].
    destruct (runs_addCommonStruct (m_Name spec) cs 0) as [ls Hl]; [lia | exact Hn | exact Hfs|].
    exists ls. apply runs_wrapErr, Hl. }
  destruct (runs_forEach (fun p => wrapErr "problem adding inline struct"
                                     (addInlineStruct (m_Name spec) p)) 0
              (collectInlineStructs (m_Fields spec))) as [l3 H3].
  { intros p Hp. apply collectInlineStructs_parent in Hp as [Hv Hne].
    destruct (runs_addInlineStruct (m_Name spec) p 0) as [ls Hl];
      [lia | exact (proj2 (Hf p Hv)) | |].
    - intros f Hin. apply Hf. apply (visited_child f p); assumption.
    - exists ls. apply runs_wrapErr, Hl. }
  destruct (runs_addReadFields (m_Name spec) (m_Fields spec) 1) as [l4 H4]; [lia | |].
  { intros f Hin. apply Hf, visited_here, Hin. }
  unfold generateFile. eexists. runs_steps.
Qed.

(** X5. A message is generated when every field of the message, every field
    below one and every field of a common struct has a name and a type that
    is not empty and holds no newline, and every common struct has a name:
    [generateFile] returns the file name, the message name followed by .go,
    and leaves the code buffer at indentation level 0. *)
Theorem generate_good_spec (packageName : string) (spec : Message) :
  goodSpec spec ->
  exists ls, generate packageName spec
             = Ok (m_Name spec +:+ ".go",
                   {| lines := ls; indentLevel := 0; indent := "    " |}).
Proof.
  intros H. destruct (runs_generateFile packageName spec H) as [ls Hl].
  exists ls. unfold generate. rewrite (Hl NewCodeBuffer); [reflexivity | split; reflexivity].
Qed.

Lemma generate_good_spec_witness :
  exists ls, generate "kafka" nestedMessage
             = Ok ("Foo.go", {| lines := ls; indentLevel := 0; indent := "    " |}).
Proof.
  apply (generate_good_spec "kafka" nestedMessage).
  split.
  - intros f Hv. cbn in Hv.
    repeat match goal with
           | H : In _ [] |- _ => destruct H
           | H : In _ (_ :: _) |- _ => destruct H as [<- | H]
           | H : visited _ [] |- _ => inversion H; clear H; subst
           | H : visited _ (_ :: _) |- _ => inversion H; clear H; subst
           | H : visited _ (f_Fields _) |- _ => progress cbn in H
           | H : In _ (f_Fields _) |- _ => progress cbn in H
           end; (split; [discriminate | split; [discriminate | reflexivity]]).
  - intros cs Hcs. cbn in Hcs. destruct Hcs as [<- | []].
    split; [discriminate|]. intros f Hf. cbn in Hf.
    destruct Hf as [<- | [<- | []]]; (split; [discriminate | split; [discriminate | reflexivity]]).
Defined.

(** ** Messages that are not generated *)

Lemma goodType_dec t : goodType t \/ ~ goodType t.
Proof.
  unfold goodType. destruct t as [| a t]; [right; intros [H _]; congruence|].
  destruct (contains newline (String a t)) eqn:E.
  - right. intros [_ H]. discriminate.
  - left. split; [discriminate | reflexivity].
Qed.

Lemma collectImports_bad_type spec f :
  In f (importFields spec) -> ~ goodType (f_Type f) ->
  exists p, collectImports spec = Panic p.
Proof.
  intros Hin Ht. unfold importFields in Hin. unfold collectImports. cbv zeta.
  destruct (foldR_panics importStep _ f (fun a y => notErr_importStep a y) Hin) with
    (a := (<["bytes" := false]> (<["encoding/binary" := true]> (<["fmt" := false]> ∅))
             : gmap string bool)) as [p Hp].
  - intros a. unfold importStep. rewrite (deconstructFieldType_bad _ Ht). simpl. eauto.
  - rewrite Hp. simpl. eauto.
Qed.

Lemma panics_addReadField_bad name f :
  ~ goodType (f_Type f) -> panics (addReadField name f).
Proof.
  intros Ht. unfold addReadField. apply panics_bind_version. cbv beta iota.
  panics_skip. apply panics_bind_l.
  eapply panics_liftR. apply deconstructFieldType_bad, Ht.
Qed.

Lemma panics_addCommonStruct_name name cs :
  cs_Name cs = EmptyString -> panics (addCommonStruct name cs).
Proof.
  intros Hn. pose proof (noErr_addStructFields name (cs_Fields cs)).
  unfold addCommonStruct. apply panics_bind_version. cbv beta iota.
  do 6 panics_skip. apply panics_bind_l. rewrite Hn. apply panics_cap_empty.
Qed.

Lemma panics_addInlineStruct_bad name parent f :
  In f (f_Fields parent) -> ~ goodType (f_Type f) ->
  panics (addInlineStruct name parent).
Proof.
  intros Hin Ht. unfold addInlineStruct. apply panics_bind_version. cbv beta iota.
  panics_skip. apply panics_bind_r; [noErr_go|]. intros [isArray fieldType].
  do 2 panics_skip.
  pose proof (noErr_addStructFields name (f_Fields parent)).
  do 9 panics_skip. apply panics_bind_l.
  eapply panics_forEach; [apply noErr_addReadField | exact Hin |].
  apply panics_addReadField_bad, Ht.
Qed.

Lemma panics_generateFile_bad_type packageName spec f :
  In f (importFields spec) -> ~ goodType (f_Type f) ->
  panics (generateFile packageName spec).
Proof.
  intros Hin Ht. unfold generateFile. do 3 panics_skip. apply panics_bind_l.
  destruct (collectImports_bad_type spec f Hin Ht) as [p Hp].
  eapply panics_liftR, Hp.
Qed.

Lemma panics_generateFile_common_name packageName spec cs :
  In cs (m_CommonStructs spec) -> cs_Name cs = EmptyString ->
  panics (generateFile packageName spec).
Proof.
  intros Hcs Hn. generateFile_calls packageName spec. unfold generateFile.
  do 12 panics_skip. apply panics_bind_l.
  eapply panics_forEach; [intros y; apply noErr_wrapErr, noErr_addCommonStruct | exact Hcs |].
  apply panics_wrapErr. apply panics_addCommonStruct_name, Hn.
Qed.

Lemma panics_generateFile_inline_bad packageName spec parent f :
  In parent (collectInlineStructs (m_Fields spec)) -> In f (f_Fields parent) ->
  ~ goodType (f_Type f) ->
  panics (generateFile packageName spec).
Proof.
  intros Hp Hin Hf. generateFile_calls packageName spec. unfold generateFile.
  do 13 panics_skip. apply panics_bind_l.
  eapply panics_forEach; [intros y; apply noErr_wrapErr, noErr_addInlineStruct | exact Hp |].
  apply panics_wrapErr. eapply panics_addInlineStruct_bad; eauto.
Qed.

Lemma panics_not_Ok {A} (m : M A) cb r : panics m -> m cb = Ok r -> False.
Proof. intros H E. destruct (H cb) as [p Hp]. congruence. Qed.

(** X6. Only such messages are generated: when [generateFile] returns, every
    field of the message, every field below one and every field of a common
    struct has a name and a type that is not empty and holds no newline, and
    every common struct has a name. *)
Theorem generate_only_good_spec (packageName : string) (spec : Message)
    (r : string * codeBuffer) :
  generate packageName spec = Ok r -> goodSpec spec.
Proof.
  unfold generate. intros Hok. split.
  - intros f Hv. split.
    + intros Hn. destruct (visited_inline f _ Hv) as [Hin | [parent [Hp Hin]]].
      * exact (panics_not_Ok _ _ _ (panics_generateFile_name packageName spec f Hin Hn) Hok).
      * exact (panics_not_Ok _ _ _
                 (panics_generateFile_inline packageName spec parent f Hp Hin (or_introl Hn))
                 Hok).
    + destruct (goodType_dec (f_Type f)) as [Hg | Hb]; [exact Hg | exfalso].
      destruct (visited_inline f _ Hv) as [Hin | [parent [Hp Hin]]].
      * refine (panics_not_Ok _ _ _ (panics_generateFile_bad_type packageName spec f _ Hb) Hok).
        apply in_or_app. left. exact Hin.
      * exact (panics_not_Ok _ _ _
                 (panics_generateFile_inline_bad packageName spec parent f Hp Hin Hb) Hok).
  - intros cs Hcs. split.
    + intros Hn.
      exact (panics_not_Ok _ _ _ (panics_generateFile_common_name packageName spec cs Hcs Hn) Hok).
    + intros f Hin. split.
      * intros Hn.
        exact (panics_not_Ok _ _ _
                 (panics_generateFile_common packageName spec cs f Hcs Hin Hn) Hok).
      * destruct (goodType_dec (f_Type f)) as [Hg | Hb]; [exact Hg | exfalso].
        refine (panics_not_Ok _ _ _ (panics_generateFile_bad_type packageName spec f _ Hb) Hok).
        apply in_or_app. right. apply in_flat_map. exists cs. split; assumption.
Qed.

Lemma generate_only_good_spec_witness : goodSpec intsOnly.
Proof.
  refine (generate_only_good_spec "kafka" intsOnly _ _).
  vm_compute. reflexivity.
Defined.

(** * The generated decoders on every input *)

Lemma uvarintLoop_nonneg n : forall i x s r,
  0 <= x -> 0 <= (uvarintLoop n i x s r).1.
Proof.
  induction n as [| n IH]; intros i x s r Hx; cbn [uvarintLoop]; [exact Hx|].
  destruct r as [| b r]; [exact Hx|]. cbv zeta.
  destruct (byteZ b <? 128).
  - destruct ((i =? 9) && (1 <? byteZ b)); [exact Hx|]. cbn [fst].
    apply Z.lor_nonneg. split; [exact Hx|]. apply Z.mod_pos_bound. lia.
  - apply IH. apply Z.lor_nonneg. split; [exact Hx|]. apply Z.mod_pos_bound. lia.
Qed.

Lemma ReadUvarint_nonneg r : 0 <= (ReadUvarint r).1.
Proof. apply uvarintLoop_nonneg. lia. Qed.

Lemma bigEndian_2 d z :
  bigEndian 2 0 d = Some z -> 0 <= z < 65536 /\ (2 <= length d)%nat.
Proof.
  destruct d as [| a [| b d]]; cbn [bigEndian]; try discriminate.
  intros H. injection H as <-. split; [| cbn; lia].
  assert (Ha : 0 <= byteZ a < 256).
  { unfold byteZ. pose proof (Byte.to_N_bounded a). lia. }
  assert (Hb : 0 <= byteZ b < 256).
  { unfold byteZ. pose proof (Byte.to_N_bounded b). lia. }
  rewrite Z.shiftl_0_l, Z.lor_0_l.
  split.
  - apply Z.lor_nonneg. split; [apply Z.shiftl_nonneg|]; lia.
  - change 65536 with (2 ^ 16).
    destruct (Z.eq_dec (Z.lor (Z.shiftl (byteZ a) 8) (byteZ b)) 0) as [-> | Hne]; [lia|].
    apply Z.log2_lt_pow2.
    + assert (0 <= Z.lor (Z.shiftl (byteZ a) 8) (byteZ b)).
      { apply Z.lor_nonneg. split; [apply Z.shiftl_nonneg|]; lia. }
      lia.
    + rewrite Z.log2_lor by (try apply Z.shiftl_nonneg; lia).
      apply Z.max_lub_lt.
      * destruct (Z.eq_dec (byteZ a) 0) as [-> | Hna]; [reflexivity|].
        rewrite Z.log2_shiftl by lia.
        assert (Z.log2 (byteZ a) < 8) by (apply Z.log2_lt_pow2; [lia | change (2 ^ 8) with 256; lia]). lia.
      * destruct (Z.eq_dec (byteZ b) 0) as [-> | Hnb]; [reflexivity|].
        assert (Z.log2 (byteZ b) < 8) by (apply Z.log2_lt_pow2; [lia | change (2 ^ 8) with 256; lia]). lia.
Qed.

Lemma sliceTo_within st n :
  0 <= n <= Z.of_nat (length (data st)) ->
  sliceTo st n = Some (take (Z.to_nat n) (data st)).
Proof.
  intros H. unfold sliceTo.
  destruct (Z.leb_spec 0 n); [| lia].
  destruct (Z.leb_spec n (Z.of_nat (length (data st) + length (spare st)))); [| lia].
  cbn [andb]. rewrite take_app_le by lia. reflexivity.
Qed.

Lemma obind_Next_r o : obind o (fun st => Next st) = o.
Proof. destruct o; reflexivity. Qed.

(** The two steps that take [n] bytes: the value is made of [data[0:n]] and
    the cursor moves by [n]; both panic when the data is shorter. *)
Lemma take_then_advance (st : goState) (x : var) (F : string) (mk : list byte -> value)
    (e : expr) :
  0 <= locals st x ->
  eval e st = (s ← sliceTo st (locals st x); Some (mk s)) ->
  let o := obind (match eval e st with
                  | Some y => Next (setRes st F y)
                  | None => Crash
                  end)
             (fun st' =>
                obind
                  (if (0 <=? locals st' x) && (locals st' x <=? Z.of_nat (length (data st')))
                   then Next (setData st' (drop (Z.to_nat (locals st' x)) (data st')))
                   else Crash)
                  (fun st0 => Next st0)) in
  if locals st x <=? Z.of_nat (length (data st))
  then o = Next (setData (setRes st F (mk (take (Z.to_nat (locals st x)) (data st))))
                   (drop (Z.to_nat (locals st x)) (data st)))
  else o = Crash.
Proof.
  intros Hn He. cbv zeta. rewrite He.
  destruct (Z.leb_spec (locals st x) (Z.of_nat (length (data st)))) as [Hle | Hgt].
  - rewrite sliceTo_within by lia. cbn [mbind option_bind obind setRes locals data].
    destruct (Z.leb_spec 0 (locals st x)); [| lia].
    destruct (Z.leb_spec (locals st x) (Z.of_nat (length (data st)))); [| lia].
    reflexivity.
  - destruct (sliceTo st (locals st x)) as [s |]; cbn [mbind option_bind obind]; [| reflexivity].
    cbn [setRes locals data].
    destruct (Z.leb_spec (locals st x) (Z.of_nat (length (data st)))); [lia|].
    rewrite andb_false_r. reflexivity.
Qed.

(** X7. The decoder generated for a string field, on every input.  With
    fewer than two bytes it panics.  A length prefix above 0x7fff ends in the
    invalid-length error; no input ends in the null error.  With a prefix
    [n] within the data the field is the first [n] bytes of the data, the
    two bytes of the prefix included, and the cursor moves by [n]; with a
    prefix beyond the data the decoder panics. *)
Theorem string_decoder_outcome construct (name F : string) (d sp : list byte) :
  let o := execAll construct [readStringCode name F false] (startState d sp) in
  o <> Return UnexpectedNull
  /\ match bigEndian 2 0 d with
     | None => o = Crash
     | Some n =>
         if 32767 <? n then o = Return (InvalidLength n)
         else if n <=? Z.of_nat (length d)
              then outcomeField o F = Some (VString (take (Z.to_nat n) d))
                   /\ outcomeData o = Some (drop (Z.to_nat n) d)
              else o = Crash
     end.
Proof.
  cbv zeta. unfold readStringCode.
  cbn [execAll exec obind startState data].
  destruct (bigEndian 2 0 d) as [n |] eqn:E.
  2:{ split; [discriminate | reflexivity]. }
  destruct (bigEndian_2 d n E) as [Hn Hd].
  cbn [obind setLocal locals var_eqb data spare].
  destruct (Z.ltb_spec n 0) as [Hneg | _]; [lia|].
  destruct (Z.ltb_spec 32767 n) as [Hbig | Hsmall].
  { cbn [obind]. split; [discriminate | reflexivity]. }
  pose proof (take_then_advance (setLocal (startState d sp) StringLen n) StringLen F VString
                (EStringTo StringLen)) as H.
  cbn [locals setLocal var_eqb startState data] in H.
  specialize (H ltac:(lia) eq_refl). cbv zeta in H.
  cbn [startState setLocal].
  rewrite !obind_Next_r.
  destruct (n <=? Z.of_nat (length d)).
  - rewrite H. split; [discriminate|]. split; [| reflexivity].
    cbn [outcomeField res setData setRes]. apply lookup_insert_eq.
  - rewrite H. split; [discriminate | reflexivity].
Qed.

(** X8. The decoder generated for a bytes field, on every input.  A failed
    read of the length ends in the uvarint error; no input ends in the null
    error.  With a length [n] within the data the field is the first [n]
    bytes of the data, the bytes of the length included, and the cursor moves
    by [n]; with a length beyond the data the decoder panics. *)
Theorem bytes_decoder_outcome construct (F : string) (d sp : list byte) :
  let o := execAll construct [readBytesCode F false] (startState d sp) in
  o <> Return UnexpectedNull
  /\ match ReadUvarint d with
     | (_, Some e) => o = Return (VarintReadFailure (Some e))
     | (n, None) =>
         if n <=? Z.of_nat (length d)
         then outcomeField o F = Some (VBytes (take (Z.to_nat n) d))
              /\ outcomeData o = Some (drop (Z.to_nat n) d)
         else o = Crash
     end.
Proof.
  cbv zeta. unfold readBytesCode.
  cbn [execAll exec obind startState data].
  pose proof (ReadUvarint_nonneg d) as Hn.
  destruct (ReadUvarint d) as [n [e |]]; cbn [fst] in Hn.
  { cbn [obind exec err setErr setLocal]. split; [discriminate | reflexivity]. }
  cbn [obind err setErr setLocal locals var_eqb].
  destruct (Z.ltb_spec n 0) as [Hneg | _]; [lia|].
  cbn [obind].
  match goal with |- context [eval (ESliceTo BytesLen) ?st] =>
    pose proof (take_then_advance st BytesLen F VBytes (ESliceTo BytesLen)) as H
  end.
  cbn [locals setLocal setErr startState var_eqb data] in H.
  cbn [setLocal setErr startState].
  specialize (H ltac:(lia) eq_refl). cbv zeta in H.
  rewrite !obind_Next_r.
  destruct (n <=? Z.of_nat (length d)).
  - rewrite H. split; [discriminate|]. split; [| reflexivity].
    cbn [outcomeField res setData setRes]. apply lookup_insert_eq.
  - rewrite H. split; [discriminate | reflexivity].
Qed.

(** ** Loops *)

Lemma obind_assoc o f g : obind (obind o f) g = obind o (fun st => obind (f st) g).
Proof. destruct o; reflexivity. Qed.

Lemma iterN_add a b f st :
  iterN (a + b) f st = obind (iterN a f st) (iterN b f).
Proof.
  revert st. induction a as [| a IH]; intros st; cbn [iterN Nat.add obind]; [reflexivity|].
  rewrite obind_assoc. destruct (f st) as [st' | e |]; cbn [obind]; [apply IH | reflexivity..].
Qed.

Lemma iterP_iterN p f : forall st, iterP p f st = iterN (Pos.to_nat p) f st.
Proof.
  induction p as [p IH | p IH |]; intros st; cbn [iterP].
  - rewrite Pos2Nat.inj_xI. cbn [iterN].
    replace (2 * Pos.to_nat p)%nat with (Pos.to_nat p + Pos.to_nat p)%nat by lia.
    destruct (f st) as [st' | e |]; cbn [obind]; [| reflexivity..].
    rewrite iterN_add, IH. destruct (iterN (Pos.to_nat p) f st'); cbn [obind];
      [apply IH | reflexivity..].
  - rewrite Pos2Nat.inj_xO.
    replace (2 * Pos.to_nat p)%nat with (Pos.to_nat p + Pos.to_nat p)%nat by lia.
    rewrite iterN_add, IH. destruct (iterN (Pos.to_nat p) f st); cbn [obind];
      [apply IH | reflexivity..].
  - change (Pos.to_nat 1) with 1%nat. cbn [iterN]. destruct (f st); reflexivity.
Qed.

Lemma loopN_iterN n f st : loopN n f st = iterN (N.to_nat n) f st.
Proof. destruct n as [| p]; [reflexivity | apply iterP_iterN]. Qed.

(** ** Arrays of int8 *)

(** One turn of the loop over an int8 array. *)
Lemma int8_turn construct F st :
  execAll construct [SAppend F EInt8; SAdvance1] st =
  match data st with
  | b :: d' => Next (setData (setRes st F (appended st F (int8Value b))) d')
  | [] => Crash
  end.
Proof.
  cbn [execAll exec eval obind]. destruct (data st) as [| b d'] eqn:E; [reflexivity|].
  cbn [obind setRes data]. rewrite E. reflexivity.
Qed.

Lemma fieldList_appended st F x d' :
  fieldList (setData (setRes st F (appended st F x)) d') F = (fieldList st F ++ [x])%list.
Proof.
  unfold fieldList, appended. cbn [res setData setRes]. rewrite lookup_insert_eq.
  destruct (res st !! F) as [[] |]; reflexivity.
Qed.

Lemma int8_turns construct F : forall k st,
  if (k <=? length (data st))%nat
  then exists st', iterN k (execAll construct [SAppend F EInt8; SAdvance1]) st = Next st'
                   /\ data st' = drop k (data st)
                   /\ spare st' = spare st
                   /\ fieldList st' F = (fieldList st F ++ map int8Value (take k (data st)))%list
                   /\ (k = O -> res st' = res st)
                   /\ ((0 < k)%nat -> res st' !! F = Some (VList (fieldList st' F)))
  else iterN k (execAll construct [SAppend F EInt8; SAdvance1]) st = Crash.
Proof.
  induction k as [| k IH]; intros st.
  - cbn [Nat.leb iterN]. exists st. rewrite drop_0, take_0, app_nil_r.
    do 4 (split; [reflexivity|]). split; [reflexivity | lia].
  - cbn [iterN]. rewrite int8_turn. destruct (data st) as [| b d'] eqn:E.
    + reflexivity.
    + cbn [obind length Nat.leb].
      specialize (IH (setData (setRes st F (appended st F (int8Value b))) d')).
      cbn [data setData] in IH.
      destruct (k <=? length d')%nat; [| exact IH].
      destruct IH as (st' & H1 & H2 & H3 & H4 & H5 & H6).
      exists st'. split; [exact H1|]. split; [exact H2|]. split; [exact H3|].
      split; [| split; [lia|]].
      * rewrite H4, fieldList_appended. cbn [take map]. rewrite <- app_assoc. reflexivity.
      * intros _. destruct k as [| k'].
        -- rewrite (H5 eq_refl). unfold fieldList at 1. rewrite (H5 eq_refl).
           cbn [res setData setRes]. rewrite lookup_insert_eq.
           unfold appended. destruct (res st !! F) as [[] |]; reflexivity.
        -- apply H6. lia.
Qed.

(** X9. The decoder generated for an array of int8, on every input.  A
    failed read of the count ends in the uvarint error.  Otherwise the
    decoder runs [k] turns, where [k] is the count less one as a uint64 (so
    2^64 - 1 for the count 0): with at least [k] bytes of data the elements
    are the first [k] bytes, the bytes of the count included, and the cursor
    moves by [k]; with fewer bytes the decoder panics.  No count is
    rejected. *)
Theorem int8_array_decoder_outcome construct (F : string) (d sp : list byte) :
  let o := execAll construct (arrayCode [SAppend F EInt8; SAdvance1]) (startState d sp) in
  match ReadUvarint d with
  | (_, Some e) => o = Return (VarintReadFailure (Some e))
  | (n, None) =>
      let k := Z.to_nat ((n - 1) mod 2 ^ 64) in
      if (k <=? length d)%nat
      then outcomeData o = Some (drop k d)
           /\ outcomeField o F
              = (if (k =? 0)%nat then None else Some (VList (map int8Value (take k d))))
      else o = Crash
  end.
Proof.
  cbv zeta. unfold arrayCode.
  cbn [execAll exec obind startState data].
  destruct (ReadUvarint d) as [n [e |]].
  { cbn [obind exec err setErr setLocal]. reflexivity. }
  cbn [obind err setErr setLocal locals var_eqb varWidth].
  rewrite !obind_Next_r, loopN_iterN, Z_N_nat.
  set (k := Z.to_nat ((n - 1) mod 2 ^ 64)).
  match goal with |- context [iterN k ?body ?st] =>
    change body with (execAll construct [SAppend F EInt8; SAdvance1]);
    pose proof (int8_turns construct F k st) as H
  end.
  unfold fieldList in H at 2.
  cbn [data spare res setLocal setErr startState] in H. rewrite lookup_empty in H.
  cbn [app] in H.
  destruct (k <=? length d)%nat; [| exact H].
  destruct H as (st' & -> & H2 & _ & H4 & H5 & H6).
  cbn [outcomeData outcomeField]. split; [rewrite H2; reflexivity|].
  destruct k as [| k'].
  - cbn [Nat.eqb]. rewrite (H5 eq_refl). reflexivity.
  - cbn [Nat.eqb]. rewrite H6 by lia. rewrite H4. reflexivity.
Qed.

(** * [skipCommentLines] *)

Lemma starM_class P m k :
  matchesClass P m ->
  (forall p a s c, P a = true -> k p (String a s) c = None) ->
  forall pos rest cs,
  starM m pos rest cs k = k (pos + runLength P rest)%nat (skipClass P rest) cs.
Proof.
  intros Hm Hk pos rest cs. unfold starM.
  rewrite (plusLoop_class P m k Hm Hk) by lia.
  destruct rest as [| a r].
  - cbn [runLength skipClass]. rewrite Nat.add_0_r. reflexivity.
  - cbn [runLength skipClass]. destruct (P a) eqn:Pa.
    + destruct (k _ _ cs) eqn:E; [reflexivity|]. apply Hk, Pa.
    + rewrite Nat.add_0_r. reflexivity.
Qed.

Lemma matchesClass_classM P : matchesClass P (classM P).
Proof. split; reflexivity. Qed.

Lemma isSpace_not_slash a : isSpace a = true -> Ascii.eqb a "/" = false.
Proof.
  intros H. destruct (Ascii.eqb a "/") eqn:E; [| reflexivity].
  apply Ascii.eqb_eq in E. subst a. discriminate H.
Qed.

Lemma skipClass_notNewline_empty u :
  match skipClass notNewline u with
  | EmptyString => contains newline u = false
  | String _ _ => contains newline u = true
  end.
Proof.
  destruct (contains newline u) eqn:E.
  - destruct (skipClass_newline u E) as (a & r & ->). reflexivity.
  - destruct (skipClass_notNewline u E) as [-> _]. reflexivity.
Qed.

(** The attempt of [isCommentedLineRegex] at the start of the text. *)
Lemma isCommentedLineRegex_start s :
  isCommentedLineRegex O s [None] (fun _ _ c => Some c) =
  if startsComment s then Some [None] else None.
Proof.
  unfold isCommentedLineRegex, seqM at 1 2. cbn [rmatch Nat.eqb].
  rewrite (starM_class isSpace _ _ (matchesClass_classM isSpace)).
  2:{ intros p a r c Ha. unfold seqM. cbn [rmatch]. rewrite (isSpace_not_slash a Ha).
      reflexivity. }
  unfold startsComment. destruct (skipClass isSpace s) as [| a t]; [reflexivity|].
  unfold seqM at 1. cbn [rmatch].
  destruct (Ascii.eqb a "/") eqn:Ha.
  2:{ destruct a as [[] [] [] [] [] [] [] []]; try discriminate Ha; reflexivity. }
  apply Ascii.eqb_eq in Ha. subst a.
  destruct t as [| b u]; [reflexivity|].
  unfold seqM at 1. cbn [rmatch].
  destruct (Ascii.eqb b "/") eqn:Hb.
  2:{ destruct b as [[] [] [] [] [] [] [] []]; try discriminate Hb; reflexivity. }
  apply Ascii.eqb_eq in Hb. subst b.
  unfold seqM.
  rewrite (starM_class notNewline _ _ matchesClass_RAny) by reflexivity.
  pose proof (skipClass_notNewline_empty u) as H.
  destruct (skipClass notNewline u); rewrite H; reflexivity.
Qed.

Lemma isCommentedLineRegex_later rest : forall pos,
  matchFrom isCommentedLineRegex (S pos) rest = false.
Proof.
  induction rest as [| a rest IH]; intros pos; cbn [matchFrom].
  - reflexivity.
  - unfold isCommentedLineRegex at 1, seqM at 1. cbn [rmatch Nat.eqb]. apply IH.
Qed.

Lemma MatchString_isCommentedLineRegex s :
  MatchString isCommentedLineRegex s = startsComment s.
Proof.
  unfold MatchString. destruct s as [| a r].
  - reflexivity.
  - cbn [matchFrom]. rewrite isCommentedLineRegex_start.
    destruct (startsComment (String a r)); [reflexivity|].
    apply isCommentedLineRegex_later.
Qed.

(** X10. [isCommentedLineRegex] matches a text exactly when its first
    characters after any tabs, newlines, form feeds, carriage returns and
    spaces are two slashes and no newline follows them. *)
Theorem commented_line_starts_with_slashes (s : string) :
  MatchString isCommentedLineRegex s
  = match skipClass isSpace s with
    | String "/" (String "/" u) => negb (contains newline u)
    | _ => false
    end.
Proof. apply MatchString_isCommentedLineRegex. Qed.

Lemma append_cons x (a b : string) : String x a +:+ b = String x (a +:+ b).
Proof. reflexivity. Qed.

Lemma append_nil (b : string) : EmptyString +:+ b = b.
Proof. reflexivity. Qed.

Lemma append_assoc' (a b c : string) : (a +:+ b) +:+ c = a +:+ (b +:+ c).
Proof.
  induction a as [| x a IH]; [reflexivity|]. rewrite !append_cons. f_equal. exact IH.
Qed.

Lemma append_empty_r (a : string) : a +:+ EmptyString = a.
Proof. induction a as [| x a IH]; [reflexivity|]. rewrite append_cons. f_equal. exact IH. Qed.

Lemma skipLoop_joinLines ls : forall sb,
  skipLoop ls sb
  = sb +:+ joinLines (filter (fun s => negb (MatchString isCommentedLineRegex s) = true) ls).
Proof.
  induction ls as [| s ls IH]; intros sb; cbn [skipLoop].
  - rewrite filter_nil. cbn [joinLines]. rewrite append_empty_r. reflexivity.
  - rewrite IH. rewrite filter_cons.
    destruct (MatchString isCommentedLineRegex s); cbn [negb].
    + rewrite decide_False by discriminate. reflexivity.
    + rewrite decide_True by reflexivity. cbn [joinLines].
      rewrite !append_assoc'. reflexivity.
Qed.

Lemma splitLines_cons s : exists l ls, splitLines s = l :: ls.
Proof.
  induction s as [| c r IH]; cbn [splitLines]; [eauto|].
  destruct (Ascii.eqb c newline); [eauto|].
  destruct IH as (l & ls & ->). eauto.
Qed.

Lemma splitLines_no_newline s :
  Forall (fun l => contains newline l = false) (splitLines s).
Proof.
  induction s as [| c r IH]; cbn [splitLines].
  - constructor; [reflexivity | constructor].
  - destruct (Ascii.eqb c newline) eqn:E.
    + constructor; [reflexivity | exact IH].
    + destruct (splitLines r) as [| l ls];
        [constructor; [cbn [contains]; rewrite E; reflexivity | constructor]|].
      inversion IH as [| ? ? Hl Hls]; subst.
      constructor; [cbn [contains]; rewrite E, Hl; reflexivity | exact Hls].
Qed.

Lemma joinLines_splitLines s :
  joinLines (splitLines s) = s +:+ String newline EmptyString.
Proof.
  induction s as [| c r IH]; cbn [splitLines]; [reflexivity|].
  destruct (Ascii.eqb c newline) eqn:E.
  - apply Ascii.eqb_eq in E. subst c. cbn [joinLines]. rewrite IH. reflexivity.
  - destruct (splitLines_cons r) as (l & ls & Hr). rewrite Hr in *.
    cbn [joinLines] in *. rewrite !append_cons. f_equal. exact IH.
Qed.

Lemma splitLines_line l rest :
  contains newline l = false ->
  splitLines ((l +:+ String newline EmptyString) +:+ rest) = l :: splitLines rest.
Proof.
  induction l as [| c l IH]; intros H.
  - rewrite append_nil, append_cons, append_nil. cbn [splitLines].
    rewrite (proj2 (Ascii.eqb_eq newline newline) eq_refl). reflexivity.
  - cbn [contains] in H. apply orb_false_iff in H as [Hc Hl].
    rewrite !append_cons. cbn [splitLines]. rewrite Hc, (IH Hl). reflexivity.
Qed.

Lemma splitLines_joinLines ls :
  Forall (fun l => contains newline l = false) ls ->
  splitLines (joinLines ls) = (ls ++ [EmptyString])%list.
Proof.
  induction 1 as [| l ls Hl Hls IH]; [reflexivity|].
  cbn [joinLines]. rewrite splitLines_line by exact Hl. rewrite IH. reflexivity.
Qed.

(** X11. The lines of the text [skipCommentLines] returns are the lines of
    its argument that [isCommentedLineRegex] does not match, in their order,
    followed by one empty line: every line kept is ended by a newline, the
    last one as well. *)
Theorem skipCommentLines_lines (data : string) :
  splitLines (skipCommentLines data)
  = (filter (fun s => negb (MatchString isCommentedLineRegex s) = true) (splitLines data)
       ++ [EmptyString])%list.
Proof.
  unfold skipCommentLines. rewrite skipLoop_joinLines, append_nil.
  apply splitLines_joinLines.
  pose proof (splitLines_no_newline data) as H.
  induction H as [| l ls Hl Hls IH]; [constructor|].
  rewrite filter_cons. destruct (decide _); [constructor; assumption | exact IH].
Qed.

(** X12. A text without comment lines comes back with one more newline at
    its end: [skipCommentLines] does not give back its argument, and a second
    pass adds another newline. *)
Theorem skipCommentLines_adds_newline (data : string) :
  (forall s, In s (splitLines data) -> MatchString isCommentedLineRegex s = false) ->
  skipCommentLines data = data +:+ String newline EmptyString.
Proof.
  intros H. unfold skipCommentLines. rewrite skipLoop_joinLines, append_nil.
  rewrite <- joinLines_splitLines. f_equal.
  induction (splitLines data) as [| l ls IH]; [reflexivity|].
  rewrite filter_cons, (H l (or_introl eq_refl)). cbn [negb].
  rewrite decide_True by reflexivity. f_equal. apply IH.
  intros s Hs. apply H. right. exact Hs.
Qed.

Lemma skipCommentLines_adds_newline_witness :
  skipCommentLines "{ }" = "{ }" +:+ String newline EmptyString.
Proof.
  apply (skipCommentLines_adds_newline "{ }").
  intros s Hs. cbn in Hs. destruct Hs as [<- | []]. vm_compute. reflexivity.
Defined.

(** * [WriteTo] *)

Lemma sprintf_plain f args : contains "%" f = false -> sprintf f args = f.
Proof.
  induction f as [| c f IH]; intros H; [reflexivity|].
  cbn [contains] in H. apply orb_false_iff in H as [Hc Hf].
  cbn [sprintf]. rewrite Hc, (IH Hf). reflexivity.
Qed.

Lemma sprintf_app_plain p f args :
  contains "%" p = false -> sprintf (p +:+ f) args = p +:+ sprintf f args.
Proof.
  induction p as [| c p IH]; intros H; [reflexivity|].
  cbn [contains] in H. apply orb_false_iff in H as [Hc Hp].
  rewrite !append_cons. cbn [sprintf]. rewrite Hc, (IH Hp). reflexivity.
Qed.

Lemma contains_app c (a b : string) :
  contains c (a +:+ b) = contains c a || contains c b.
Proof.
  induction a as [| x a IH]; [reflexivity|].
  rewrite append_cons. cbn [contains]. rewrite IH, orb_assoc. reflexivity.
Qed.

Lemma contains_indent lvl : contains "%" (repeatString lvl "    ") = false.
Proof.
  induction lvl as [| lvl IH]; [reflexivity|].
  cbn [repeatString]. rewrite contains_app, IH. reflexivity.
Qed.

Lemma line_plain lvl f :
  contains "%" f = false -> line lvl f [] = repeatString lvl "    " +:+ f.
Proof.
  intros H. unfold line. apply sprintf_plain. rewrite contains_app, contains_indent, H.
  reflexivity.
Qed.

Lemma runs_WriteTo ls lvl :
  runs (forEach ls (fun l => AddLine l [])) lvl lvl (map (fun l => line lvl l []) ls) tt.
Proof.
  induction ls as [| l ls IH]; cbn [forEach map].
  - apply runs_ret.
  - change (line lvl l [] :: map (fun l0 => line lvl l0 []) ls)
      with ([line lvl l []] ++ map (fun l0 => line lvl l0 []) ls)%list.
    eapply runs_bind; [apply runs_AddLine | exact IH].
Qed.

(** X13. [WriteTo] copies the lines that hold no percent sign as they are,
    each behind the indentation of the buffer written into, whose level it
    leaves as it is. *)
Theorem WriteTo_plain_lines (cb other : codeBuffer) (lvl : nat) :
  atLevel other lvl ->
  Forall (fun l => contains "%" l = false) (lines cb) ->
  WriteTo cb other
  = Ok (tt, emit other (map (fun l => repeatString lvl "    " +:+ l) (lines cb)) lvl).
Proof.
  intros Hlvl Hplain. unfold WriteTo. rewrite (runs_WriteTo (lines cb) lvl other Hlvl).
  do 3 f_equal. induction Hplain as [| l ls Hl Hls IH]; [reflexivity|].
  cbn [map]. rewrite (line_plain lvl l Hl), IH. reflexivity.
Qed.

Lemma WriteTo_plain_lines_witness :
  WriteTo (emit NewCodeBuffer ["type Foo struct {"; "}"] 0) (emit NewCodeBuffer ["{"] 1)
  = Ok (tt, emit (emit NewCodeBuffer ["{"] 1) ["    type Foo struct {"; "    }"] 1).
Proof.
  apply (WriteTo_plain_lines (emit NewCodeBuffer ["type Foo struct {"; "}"] 0)
           (emit NewCodeBuffer ["{"] 1) 1).
  - split; reflexivity.
  - repeat constructor.
Defined.

(** X14. [WriteTo] hands every line to [AddLine] as a format: a line with a
    verb, such as the [%w] and [%d] of the generated error returns, is not
    copied as it is, the verb comes out as [%!v(MISSING)]. *)
Theorem WriteTo_rewrites_verbs (other : codeBuffer) (lvl : nat) (p q : string) (v : ascii) :
  atLevel other lvl ->
  contains "%" p = false -> contains "%" q = false -> isLetter v = true ->
  WriteTo {| lines := [p +:+ String "%" (String v q)]; indentLevel := 0; indent := "    " |}
    other
  = Ok (tt, emit other
              [repeatString lvl "    " +:+ p +:+ "%!" +:+ String v "(MISSING)" +:+ q] lvl).
Proof.
  intros Hlvl Hp Hq Hv. unfold WriteTo. cbn [lines].
  rewrite (runs_WriteTo _ lvl other Hlvl). do 3 f_equal. cbn [map]. f_equal.
  unfold line. rewrite <- append_assoc'.
  rewrite sprintf_app_plain by (rewrite contains_app, contains_indent, Hp; reflexivity).
  rewrite append_assoc'. do 2 f_equal.
  cbn [sprintf]. change (Ascii.eqb "%" "%") with true. cbv iota.
  assert (Hne : Ascii.eqb v "%" = false).
  { destruct (Ascii.eqb v "%") eqn:E; [| reflexivity].
    apply Ascii.eqb_eq in E. subst v. discriminate Hv. }
  rewrite Hne, (sprintf_plain q [] Hq). reflexivity.
Qed.

Lemma WriteTo_rewrites_verbs_witness :
  WriteTo {| lines := ["return fmt.Errorf(" +:+ String "%" (String "w" ", err)")];
             indentLevel := 0; indent := "    " |} NewCodeBuffer
  = Ok (tt, emit NewCodeBuffer
              [repeatString 0 "    " +:+ "return fmt.Errorf(" +:+ "%!"
                 +:+ String "w" "(MISSING)" +:+ ", err)"] 0).
Proof.
  apply (WriteTo_rewrites_verbs NewCodeBuffer 0 "return fmt.Errorf(" ", err)" "w").
  - split; reflexivity.
  - reflexivity.
  - reflexivity.
  - reflexivity.
Defined.

(** * The fields below a field of a common struct *)

Lemma addStructField_same name f g :
  sameAbove f g -> addStructField name f = addStructField name g.
Proof.
  destruct f as [n t v a d i fs], g as [n' t' v' a' d' i' fs'].
  intros (Hn & Ht & Hv & Hd & Hh). cbn [f_Name f_Type f_Versions f_Default] in *. subst.
  unfold addStructField. rewrite Hh. reflexivity.
Qed.

Lemma addReadField_same name f g :
  sameAbove f g -> addReadField name f = addReadField name g.
Proof.
  destruct f as [n t v a d i fs], g as [n' t' v' a' d' i' fs'].
  intros (Hn & Ht & Hv & Hd & Hh). cbn [f_Name f_Type f_Versions f_Default] in *. subst.
  unfold addReadField, addReadElement, addReadScalar, addDefault. rewrite Hh. reflexivity.
Qed.

Lemma forEach_same {A} (R : A -> A -> Prop) (f : A -> M unit) l1 l2 :
  Forall2 R l1 l2 -> (forall x y, R x y -> f x = f y) -> forEach l1 f = forEach l2 f.
Proof.
  intros H Hf. induction H as [| x y l1 l2 Hxy Hl IH]; [reflexivity|].
  cbn [forEach]. rewrite (Hf x y Hxy), IH. reflexivity.
Qed.

Lemma addCommonStruct_same name c1 c2 :
  sameCommonStruct c1 c2 -> addCommonStruct name c1 = addCommonStruct name c2.
Proof.
  destruct c1 as [n1 v1 fs1], c2 as [n2 v2 fs2].
  intros (Hn & Hv & Hf). cbn [cs_Name cs_Versions cs_Fields] in *. subst.
  unfold addCommonStruct, addStructFields. cbn [cs_Name cs_Versions cs_Fields].
  rewrite (forEach_same sameAbove (addStructField name) fs1 fs2 Hf (addStructField_same name)).
  rewrite (forEach_same sameAbove (addReadField name) fs1 fs2 Hf (addReadField_same name)).
  reflexivity.
Qed.

Lemma importStep_same d f g : sameAbove f g -> importStep d f = importStep d g.
Proof. intros (_ & Ht & _). unfold importStep. rewrite Ht. reflexivity. Qed.

Lemma foldR_same fs1 fs2 :
  Forall2 sameAbove fs1 fs2 -> forall d, foldR importStep d fs1 = foldR importStep d fs2.
Proof.
  induction 1 as [| f g fs1 fs2 Hfg Hfs IH]; intros d; [reflexivity|].
  cbn [foldR]. rewrite (importStep_same d f g Hfg).
  destruct (importStep d g); cbn [rbind]; [apply IH | reflexivity..].
Qed.

Lemma sameAbove_refl fs : Forall2 sameAbove fs fs.
Proof. induction fs; constructor; [repeat split | assumption]. Qed.

Lemma sameAbove_flat css1 css2 :
  Forall2 sameCommonStruct css1 css2 ->
  Forall2 sameAbove (flat_map cs_Fields css1) (flat_map cs_Fields css2).
Proof.
  induction 1 as [| c1 c2 l1 l2 (_ & _ & Hc) Hl IH]; [constructor|].
  cbn [flat_map]. apply Forall2_app; assumption.
Qed.

(** X16. The fields below a field of a common struct reach the generated
    file only through whether there are any: two messages with the same name
    and fields, whose common structs differ only in the descriptions, the
    ignorable flags and the fields below their fields, give the same file. *)
Theorem generate_ignores_fields_below_common_struct (packageName : string)
    (spec1 spec2 : Message) :
  m_Name spec1 = m_Name spec2 -> m_Fields spec1 = m_Fields spec2 ->
  Forall2 sameCommonStruct (m_CommonStructs spec1) (m_CommonStructs spec2) ->
  generate packageName spec1 = generate packageName spec2.
Proof.
  destruct spec1 as [mt1 n1 vv1 fv1 fs1 css1], spec2 as [mt2 n2 vv2 fv2 fs2 css2].
  cbn [m_Name m_Fields m_CommonStructs]. intros Hn Hf Hcs. subst.
  assert (Hi : collectImports (mkMessage mt1 n2 vv1 fv1 fs2 css1)
               = collectImports (mkMessage mt2 n2 vv2 fv2 fs2 css2)).
  { unfold collectImports. cbn [m_Fields m_CommonStructs].
    rewrite (foldR_same (fs2 ++ flat_map cs_Fields css1) (fs2 ++ flat_map cs_Fields css2));
      [reflexivity|].
    apply Forall2_app; [apply sameAbove_refl | apply sameAbove_flat, Hcs]. }
  unfold generate, generateFile. cbn [m_Name m_Fields m_CommonStructs]. rewrite Hi.
  rewrite (forEach_same sameCommonStruct
             (fun cs => wrapErr "problem adding common struct" (addCommonStruct n2 cs))
             css1 css2 Hcs).
  - reflexivity.
  - intros x y Hxy. rewrite (addCommonStruct_same n2 x y Hxy). reflexivity.
Qed.

Lemma generate_ignores_fields_below_common_struct_witness :
  generate "kafka" (messageWith (pairWith [field "a" "int8" "0+"]))
  = generate "kafka"
      (messageWith (pairWith [field EmptyString EmptyString EmptyString;
                              field "b" "string" "0+"])).
Proof.
  apply (generate_ignores_fields_below_common_struct "kafka").
  - reflexivity.
  - reflexivity.
  - constructor; [| constructor].
    split; [reflexivity|]. split; [reflexivity|].
    constructor; [repeat split|]. constructor; [repeat split | constructor].
Defined.

(** * [capitalize] *)

(** X15. [capitalize] on a name that is not empty.  When the first byte is
    ASCII the rest of the name is kept, a lower-case letter becomes the
    upper-case one and any other byte stays, and capitalizing the result
    again changes nothing.  A first byte of 0x80 or more is replaced by the
    three bytes of U+FFFD. *)
Theorem capitalize_first_byte (c : ascii) (rest : string) :
  if (nat_of_ascii c <? 128)%nat
  then exists c',
         capitalize (String c rest) = Ok (String c' rest)
         /\ capitalize (String c' rest) = Ok (String c' rest)
         /\ nat_of_ascii c'
            = (if (97 <=? nat_of_ascii c)%nat && (nat_of_ascii c <=? 122)%nat
               then nat_of_ascii c - 32 else nat_of_ascii c)%nat
  else capitalize (String c rest)
       = Ok (String (ascii_of_nat 239) (String (ascii_of_nat 191)
               (String (ascii_of_nat 189) rest))).
Proof.
  destruct c as [[] [] [] [] [] [] [] []];
    first [ reflexivity
          | eexists; split; [reflexivity | split; reflexivity] ].
Qed.

